(** * Kademlia address arithmetic (swarm/network/kademlia/address.go)

    A shallow embedding of the address primitives of the Kademlia overlay:
    the XOR proximity order, the distance comparison, the generation of an
    address at a given proximity order and the key range of a bin.

    Go values are modelled as follows.
    - [byte] / [uint8] : a [Z] in [0, 256); conversions wrap with [byte_of].
    - [int]            : [Z]; [/] and [%] are Go's truncated [Z.quot], [Z.rem].
    - [Address]        : [[32]byte], a [list Z]; [is_addr] states the length
                         and the range of the bytes.  An index expression
                         outside the array is a run-time panic, the [None]
                         of [index] and [store].
    - [math/rand]      : an explicit generator state threaded through the
                         calls, in the state-and-panic monad [M]. *)

From Stdlib Require Import ZArith List Bool Lia.
From stdpp Require Import base option list.
Import ListNotations.

Local Open Scope Z_scope.

(** [lia] also decides goals with [/], [mod], [Z.quot] and [Z.rem] by constants. *)
Ltac Zify.zify_post_hook ::= Z.to_euclidean_division_equations.

(** ** Bytes and addresses *)

(** The conversions [byte(x)] and [uint8(x)]: the low eight bits. *)
Definition byte_of (x : Z) : Z := x mod 256.

Definition is_byte (b : Z) : bool := (0 <=? b) && (b <? 256).

(** [common.HashLength]. *)
Definition HashLength : Z := 32.

(** [type Address common.Hash], that is [[HashLength]byte]. *)
Abbreviation Address := (list Z).

(** [len(a)]. *)
Definition len (a : Address) : Z := Z.of_nat (length a).

(** The values of type [[32]byte]. *)
Definition is_addr (a : Address) : bool :=
  (len a =? HashLength) && forallb is_byte a.

(** [a[i]]: panics (here [None]) when [i] is outside [0, len a). *)
Definition index (a : Address) (i : Z) : option Z :=
  if (0 <=? i) && (i <? len a) then a !! Z.to_nat i else None.

(** [a[i] = v], with the same panic. *)
Definition store (a : Address) (i v : Z) : option Address :=
  if (0 <=? i) && (i <? len a) then Some (<[Z.to_nat i := v]> a) else None.

(** Bit [k] of an address, most significant bit of byte 0 first. *)
Definition bit_at (a : Address) (k : Z) : bool :=
  match index a (k / 8) with
  | Some x => Z.testbit x (7 - k mod 8)
  | None => false
  end.

(** Big-endian unsigned comparison of byte sequences ([bytes.Compare <= 0]). *)
Fixpoint addr_le (a b : Address) : bool :=
  match a, b with
  | [], _ => true
  | _ :: _, [] => false
  | x :: a', y :: b' => (x <? y) || ((x =? y) && addr_le a' b')
  end.

(** The distance of the source comment on [proximity]: "the value of the
    binary integer cast of the x^y", "big endian: most significant bit
    first". *)
Definition be_value (l : list Z) : Z := fold_left (fun acc b => acc * 256 + b) l 0.

Definition distance (x y : Address) : Z := be_value (zip_with Z.lxor x y).

(** ** Control flow *)

(** What one turn of a loop body asks for. *)
Inductive ctl (R : Type) : Type :=
| Next : ctl R
| Return : R -> ctl R.
Arguments Next {R}.
Arguments Return {R} _.

(** [for i := lo; i < lo + n; i++ { body }] where the body may [return]
    from the enclosing function or panic. *)
Fixpoint for_return {R : Type} (n : nat) (i : Z) (body : Z -> option (ctl R))
  : option (ctl R) :=
  match n with
  | O => Some Next
  | S n' =>
      match body i with
      | Some Next => for_return n' (i + 1) body
      | other => other
      end
  end.

(** The state-and-panic monad: [St] is what the callee may change. *)
Definition M (St A : Type) : Type := St -> option (A * St).

Definition ret {St A} (a : A) : M St A := fun s => Some (a, s).

Definition bind {St A B} (m : M St A) (k : A -> M St B) : M St B :=
  fun s => match m s with
           | Some (a, s') => k a s'
           | None => None
           end.

(** A step that cannot touch the state but may panic. *)
Definition lift {St A} (o : option A) : M St A :=
  fun s => match o with Some a => Some (a, s) | None => None end.

Declare Scope go_scope.
Delimit Scope go_scope with go.
Notation "'do' x <- m ; k" := (bind m (fun x => k))
  (at level 10, x name, m at level 100, k at level 200) : go_scope.
Notation "'do' ' p <- m ; k" := (bind m (fun x => match x with p => k end))
  (at level 10, p pattern, m at level 100, k at level 200) : go_scope.

(** [for i := lo; i < lo + n; i++ { t = body i t }] in [M]. *)
Fixpoint for_up {St T : Type} (n : nat) (i : Z) (body : Z -> T -> M St T) (t : T)
  : M St T :=
  match n with
  | O => ret t
  | S n' => (do t' <- body i t; for_up n' (i + 1) body t')%go
  end.

(** The same loop for a body without effects. *)
Fixpoint for_pure {T : Type} (n : nat) (i : Z) (body : Z -> T -> T) (t : T) : T :=
  match n with
  | O => t
  | S n' => for_pure n' (i + 1) body (body i t)
  end.

(** ** The random source *)

(** [math/rand]: an arbitrary sequence of draws and the position reached. *)
Record Rand : Type := mkRand { draws : nat -> Z; cursor : nat }.

(** [rand.Intn(n)]: a value of [0, n); panics when [n <= 0]. *)
Definition Intn (n : Z) : M Rand Z :=
  fun r =>
    if n <=? 0 then None
    else Some (draws r (cursor r) mod n, mkRand (draws r) (S (cursor r))).

(** ** address.go *)

(** [func proximity(one, other Address) (ret int)] *)
Definition proximity (one other : Address) : option Z :=
  match
    for_return (Z.to_nat (len one)) 0 (fun i =>
      match index one i, index other i with
      | Some a, Some b =>
          let oxo := Z.lxor a b in
          for_return 8 0 (fun j =>
            if negb (Z.land (Z.shiftr oxo (byte_of (7 - j))) 1 =? 0)
            then Some (Return (i * 8 + j))
            else Some Next)
      | _, _ => None
      end)
  with
  | Some (Return r) => Some r
  | Some Next => Some (len one * 8)
  | None => None
  end.

(** [func (target Address) ProxCmp(a, b Address) int] *)
Definition ProxCmp (target a b : Address) : option Z :=
  match
    for_return (Z.to_nat (len target)) 0 (fun i =>
      match index a i, index target i, index b i with
      | Some ai, Some ti, Some bi =>
          let da := Z.lxor ai ti in
          let db := Z.lxor bi ti in
          if da >? db then Some (Return 1)
          else if da <? db then Some (Return (-1))
          else Some Next
      | _, _, _ => None
      end)
  with
  | Some (Return r) => Some r
  | Some Next => Some 0
  | None => None
  end.

(** [byte(rand.Intn(255))] *)
Definition rand_byte : M Rand Z := (do r <- Intn 255; ret (byte_of r))%go.

(** [for i := pos + 1; i < len(addr); i++ { addr[i] = f() }] *)
Definition fill_after {St} (pos : Z) (f : M St Z) (addr : Address) : M St Address :=
  for_up (Z.to_nat (len addr - (pos + 1))) (pos + 1)
    (fun i addr => (do b <- f; lift (store addr i b))%go) addr.

(** [func RandomAddressAt(self Address, prox int) (addr Address)] *)
Definition RandomAddressAt (self : Address) (prox : Z) : M Rand Address :=
  (let addr := self in
   let pos := 0 in
   do '(addr, pos) <-
     (if prox >=? 0 then
        let pos := Z.quot prox 8 in
        let trans := Z.rem prox 8 in
        let transbytea :=
          (* for j := 0; j <= trans; j++ *)
          for_pure (Z.to_nat (trans + 1)) 0
            (fun j t => Z.lor t (byte_of (Z.shiftl 1 (byte_of (7 - j))))) 0 in
        let flipbyte := byte_of (Z.shiftl 1 (byte_of (7 - trans))) in
        let transbyteb := Z.lxor transbytea (byte_of 255) in
        do randbyte <- rand_byte;
        do old <- lift (index addr pos);
        do addr <- lift (store addr pos
                     (Z.lor (Z.lxor (Z.land old transbytea) flipbyte)
                            (Z.land randbyte transbyteb)));
        ret (addr, pos)
      else ret (addr, pos));
   fill_after pos rand_byte addr)%go.

(** [func CommonBitsAddrF(self, other Address, f func() byte, p int) (addr Address)] *)
Definition CommonBitsAddrF {St} (self other : Address) (f : M St Z) (p : Z)
  : M St Address :=
  (do prox <- lift (proximity self other);
   let prox := if p <=? prox then p else prox in
   let pos := Z.quot prox 8 in
   let addr := self in
   let trans := byte_of (Z.rem prox 8) in
   let transbytea := if p >? prox then 127 else 255 in
   let transbytea := Z.shiftr transbytea trans in
   let transbyteb := Z.lxor transbytea 255 in
   do addrpos <- lift (index addr pos);
   let addrpos := Z.land addrpos transbyteb in
   let addrpos :=
     if p >? prox then Z.lxor addrpos (Z.shiftr 128 trans) else addrpos in
   do b <- f;
   let addrpos := Z.lor addrpos (Z.land transbytea b) in
   do addr <- lift (store addr pos addrpos);
   fill_after pos f addr)%go.

(** [func CommonBitsAddr(self, other Address, prox int) (addr Address)] *)
Definition CommonBitsAddr (self other : Address) (prox : Z) : M Rand Address :=
  CommonBitsAddrF self other rand_byte prox.

(** [func CommonBitsAddrByte(self, other Address, b byte, prox int) (addr Address)]:
    the closure [func() byte { return b }] has no state. *)
Definition CommonBitsAddrByte (self other : Address) (b : Z) (prox : Z)
  : option Address :=
  match CommonBitsAddrF self other (ret b) prox tt with
  | Some (addr, _) => Some addr
  | None => None
  end.

(** [func KeyRange(one, other Address, proxLimit int) (start, stop Address)] *)
Definition KeyRange (one other : Address) (proxLimit : Z)
  : option (Address * Address) :=
  match proximity one other with
  | Some prox =>
      let prox := if prox >=? proxLimit then proxLimit else prox in
      match CommonBitsAddrByte one other 0 prox,
            CommonBitsAddrByte one other 255 prox with
      | Some start, Some stop => Some (start, stop)
      | _, _ => None
      end
  | None => None
  end.

(** *** Text form *)

(** Go's [error]: [nil], or a failure with its text. *)
Inductive error : Type :=
| nil_error : error
| failure (text : list Z) : error.

(** One digit of the verb [%x]: ['0'..'9'], ['a'..'f']. *)
Definition hex_digit (n : Z) : Z := if n <? 10 then 48 + n else 87 + n.

(** [func (a Address) String() string]: [fmt.Sprintf("%x", a[:])]. *)
Definition String (a : Address) : list Z :=
  flat_map (fun b => [hex_digit (b / 16); hex_digit (b mod 16)]) a.

(** [func (a *Address) MarshalJSON() (out []byte, err error)]; 34 is the
    double quote. *)
Definition MarshalJSON (a : Address) : list Z * error :=
  ([34] ++ String a ++ [34], nil_error).

(** The digits of [n] in base 2, most significant first; [fuel] bounds their
    number. *)
Fixpoint binary_digits (fuel : nat) (n : Z) : list Z :=
  match fuel with
  | O => []
  | S fuel' =>
      if n <? 2 then [48 + n]
      else binary_digits fuel' (n / 2) ++ [48 + n mod 2]
  end.

(** [fmt.Sprintf("%08b", b)] on a byte: its binary digits, padded with zeros
    on the left to the width 8. *)
Definition fmt_08b (b : Z) : list Z :=
  let digits := binary_digits 8 b in
  repeat 48 (8 - length digits) ++ digits.

(** [func (a Address) Bin() string]: one [%08b] per byte, joined with the
    empty separator. *)
Definition Bin (a : Address) : list Z := concat (map fmt_08b a).

(** [value[lo:hi]] on a slice whose capacity is its length: panics unless
    [0 <= lo <= hi <= len(value)]. *)
Definition slice (value : list Z) (lo hi : Z) : option (list Z) :=
  if (0 <=? lo) && (lo <=? hi) && (hi <=? Z.of_nat (length value))
  then Some (take (Z.to_nat (hi - lo)) (drop (Z.to_nat lo) value))
  else None.

Section Json.
(** [common.HexToHash] belongs to package [common], outside this file; the
    call site fixes its type, [func(string) common.Hash], with no error
    result. *)
Variable HexToHash : list Z -> Address.

(** [func (a *Address) UnmarshalJSON(value []byte) error]: the state is the
    address [*a]. *)
Definition UnmarshalJSON (value : list Z) : M Address error :=
  (do s <- lift (slice value 1 (Z.of_nat (length value) - 1));
   fun _ => Some (nil_error, HexToHash s))%go.
End Json.

(** [Address{}]: the zero value. *)
Definition zero_address : Address := repeat 0 32.

(** [func RandomAddress() Address] *)
Definition RandomAddress : M Rand Address := RandomAddressAt zero_address (-1).

(** Some concrete values for examples. *)
Definition rnd_of (l : list Z) : Rand := mkRand (fun n => nth n l 0) 0.

Definition addr_of_head (b : Z) : Address := b :: repeat 0 31.

Definition addr_of_last (b : Z) : Address := repeat 0 31 ++ [b].

(** * Properties *)

(** ** Indexing *)

Lemma is_addr_len (a : Address) : is_addr a = true -> len a = 32.
Proof.
  unfold is_addr, HashLength. intros H.
  apply andb_true_iff in H as [H _]. lia.
Qed.

Lemma index_inv (a : Address) (i x : Z) :
  index a i = Some x -> 0 <= i < len a /\ a !! Z.to_nat i = Some x.
Proof.
  unfold index. destruct (0 <=? i) eqn:E1; destruct (i <? len a) eqn:E2;
    simpl; intros H; try discriminate. split; [lia | exact H].
Qed.

Lemma index_in_range (a : Address) (i : Z) :
  0 <= i < len a -> exists x, index a i = Some x /\ a !! Z.to_nat i = Some x.
Proof.
  intros Hi. unfold index.
  destruct (0 <=? i) eqn:E1; destruct (i <? len a) eqn:E2; try lia. simpl.
  destruct (lookup_lt_is_Some_2 a (Z.to_nat i)) as [x Hx].
  - unfold len in Hi. lia.
  - exists x. split; exact Hx.
Qed.

Lemma index_out_of_range (a : Address) (i : Z) :
  ~ (0 <= i < len a) -> index a i = None.
Proof.
  intros Hi. unfold index.
  destruct (0 <=? i) eqn:E1; destruct (i <? len a) eqn:E2; simpl; auto. lia.
Qed.

Lemma index_is_byte (a : Address) (i x : Z) :
  is_addr a = true -> index a i = Some x -> 0 <= x < 256.
Proof.
  unfold is_addr. intros H Hx.
  apply andb_true_iff in H as [_ H].
  apply index_inv in Hx as [_ Hx].
  rewrite forallb_forall in H.
  apply list_elem_of_lookup_2, list_elem_of_In, H in Hx.
  unfold is_byte in Hx. lia.
Qed.

Lemma store_inv (a a' : Address) (i v : Z) :
  store a i v = Some a' -> 0 <= i < len a /\ a' = <[Z.to_nat i := v]> a.
Proof.
  unfold store. destruct (0 <=? i) eqn:E1; destruct (i <? len a) eqn:E2;
    simpl; intros H; try discriminate. split; [lia | congruence].
Qed.

Lemma store_in_range (a : Address) (i v : Z) :
  0 <= i < len a -> store a i v = Some (<[Z.to_nat i := v]> a).
Proof.
  intros Hi. unfold store.
  destruct (0 <=? i) eqn:E1; destruct (i <? len a) eqn:E2; try lia. reflexivity.
Qed.

Lemma len_insert (a : Address) (n : nat) (v : Z) : len (<[n := v]> a) = len a.
Proof. unfold len. now rewrite length_insert. Qed.

Lemma index_insert_eq (a : Address) (i v : Z) :
  0 <= i < len a -> index (<[Z.to_nat i := v]> a) i = Some v.
Proof.
  intros Hi. destruct (index_in_range (<[Z.to_nat i := v]> a) i) as (x & Hx & Hl).
  - now rewrite len_insert.
  - rewrite list_lookup_insert_eq in Hl by (unfold len in Hi; lia). congruence.
Qed.

Lemma index_insert_ne (a : Address) (i j v : Z) :
  0 <= i -> i <> j -> index (<[Z.to_nat i := v]> a) j = index a j.
Proof.
  intros Hi Hne. unfold index. rewrite len_insert.
  destruct ((0 <=? j) && (j <? len a)) eqn:E; [|reflexivity].
  apply list_lookup_insert_ne. lia.
Qed.

(** Two arrays of one length with the same elements are the same array. *)
Lemma index_ext (a b : Address) :
  len a = len b -> (forall i, 0 <= i < len a -> index a i = index b i) -> a = b.
Proof.
  intros Hlen H. apply list_eq. intros n.
  destruct (Nat.lt_ge_cases n (length a)) as [Hn | Hn].
  - specialize (H (Z.of_nat n)). unfold index in H.
    rewrite <- Hlen, Nat2Z.id in H. unfold len in *.
    destruct (0 <=? Z.of_nat n) eqn:E1; destruct (Z.of_nat n <? Z.of_nat (length a)) eqn:E2;
      try lia. simpl in H. apply H. lia.
  - rewrite !lookup_ge_None_2; [reflexivity | unfold len in Hlen; lia | lia].
Qed.

(** ** Loops *)

Section ForReturn.
Context {R : Type}.
Implicit Types (body : Z -> option (ctl R)).

(** The loop returns at the first turn that asks for it. *)
Lemma for_return_first body (n : nat) (lo k : Z) (r : R) :
  lo <= k < lo + Z.of_nat n ->
  (forall i, lo <= i < k -> body i = Some Next) ->
  body k = Some (Return r) ->
  for_return n lo body = Some (Return r).
Proof.
  revert lo. induction n as [|n IH]; intros lo Hk Hbefore Hat; [lia|].
  simpl. destruct (Z.eq_dec lo k) as [->|Hne].
  - now rewrite Hat.
  - rewrite Hbefore by lia. apply IH; [lia | | exact Hat].
    intros i Hi. apply Hbefore. lia.
Qed.

(** It falls through when no turn returns. *)
Lemma for_return_all_next body (n : nat) (lo : Z) :
  (forall i, lo <= i < lo + Z.of_nat n -> body i = Some Next) ->
  for_return n lo body = Some Next.
Proof.
  revert lo. induction n as [|n IH]; intros lo H; [reflexivity|].
  simpl. rewrite H by lia. apply IH. intros i Hi. apply H. lia.
Qed.

Lemma for_return_Return_inv body (n : nat) (lo : Z) (r : R) :
  for_return n lo body = Some (Return r) ->
  exists k, lo <= k < lo + Z.of_nat n /\ body k = Some (Return r) /\
            forall i, lo <= i < k -> body i = Some Next.
Proof.
  revert lo. induction n as [|n IH]; intros lo H; [discriminate|].
  simpl in H. destruct (body lo) as [[|r']|] eqn:E; try discriminate.
  - apply IH in H as (k & Hk & Hat & Hbefore).
    exists k. split; [lia|]. split; [exact Hat|].
    intros i Hi. destruct (Z.eq_dec i lo) as [->|Hne]; [exact E|].
    apply Hbefore. lia.
  - exists lo. split; [lia|]. split; [congruence|]. intros i Hi. lia.
Qed.

Lemma for_return_Next_inv body (n : nat) (lo : Z) :
  for_return n lo body = Some Next ->
  forall i, lo <= i < lo + Z.of_nat n -> body i = Some Next.
Proof.
  revert lo. induction n as [|n IH]; intros lo H i Hi; [lia|].
  simpl in H. destruct (body lo) as [[|r']|] eqn:E; try discriminate.
  destruct (Z.eq_dec i lo) as [->|Hne]; [exact E|].
  apply (IH _ H). lia.
Qed.

(** A loop whose body never panics inside the range does not panic. *)
Lemma for_return_no_panic body (n : nat) (lo : Z) :
  (forall i, lo <= i < lo + Z.of_nat n -> body i <> None) ->
  for_return n lo body <> None.
Proof.
  revert lo. induction n as [|n IH]; intros lo H; [discriminate|].
  simpl. specialize (H lo) as Hlo.
  destruct (body lo) as [[|r']|] eqn:E; try discriminate.
  - apply IH. intros i Hi. apply H. lia.
  - exfalso. apply Hlo; [lia | reflexivity].
Qed.

Lemma for_return_ext body body' (n : nat) (lo : Z) :
  (forall i, lo <= i < lo + Z.of_nat n -> body i = body' i) ->
  for_return n lo body = for_return n lo body'.
Proof.
  revert lo. induction n as [|n IH]; intros lo H; [reflexivity|].
  simpl. rewrite <- H by lia. destruct (body lo) as [[|r']|]; try reflexivity.
  apply IH. intros i Hi. apply H. lia.
Qed.
End ForReturn.

(** ** Bits of a byte *)

Lemma byte_of_small (x : Z) : 0 <= x < 256 -> byte_of x = x.
Proof. intros H. unfold byte_of. now apply Z.mod_small. Qed.

Lemma byte_high_bits (x k : Z) : 0 <= x < 256 -> 8 <= k -> Z.testbit x k = false.
Proof.
  intros Hx Hk. rewrite <- (Z.mod_small x (2 ^ 8)) by (change (2 ^ 8) with 256; lia).
  apply Z.mod_pow2_bits_high. lia.
Qed.

(** The test [(oxo >> uint8(7-j)) & 0x01 != 0] reads bit [7 - j]. *)
Lemma shift_test (x j : Z) :
  0 <= j < 8 ->
  negb (Z.land (Z.shiftr x (byte_of (7 - j))) 1 =? 0) = Z.testbit x (7 - j).
Proof.
  intros Hj. rewrite byte_of_small by lia.
  rewrite Z.testbit_odd. change 1 with (Z.ones 1).
  rewrite Z.land_ones by lia. change (2 ^ 1) with 2.
  rewrite Zmod_odd. now destruct (Z.odd _).
Qed.

(** The bit scan of [proximity] on the byte [oxo] of index [i]. *)
Local Abbreviation scan i oxo :=
  (for_return 8 0 (fun j =>
     if negb (Z.land (Z.shiftr oxo (byte_of (7 - j))) 1 =? 0)
     then Some (Return (i * 8 + j))
     else Some Next)).

Lemma scan_first (i oxo t : Z) :
  0 <= t < 8 ->
  (forall j, 0 <= j < t -> Z.testbit oxo (7 - j) = false) ->
  Z.testbit oxo (7 - t) = true ->
  scan i oxo = Some (Return (i * 8 + t)).
Proof.
  intros Ht Hlow Hbit. apply for_return_first with (k := t).
  - simpl. lia.
  - intros j Hj. now rewrite shift_test, Hlow by lia.
  - now rewrite shift_test, Hbit by lia.
Qed.

Lemma scan_zero (i : Z) : scan i 0 = Some Next.
Proof. reflexivity. Qed.

Lemma scan_no_panic (i oxo : Z) : scan i oxo <> None.
Proof.
  apply for_return_no_panic. intros j _. now destruct (negb _).
Qed.

Lemma scan_Return_inv (i oxo r : Z) :
  scan i oxo = Some (Return r) ->
  exists t, 0 <= t < 8 /\ r = i * 8 + t /\ Z.testbit oxo (7 - t) = true /\
            forall j, 0 <= j < t -> Z.testbit oxo (7 - j) = false.
Proof.
  intros H. apply for_return_Return_inv in H as (t & Ht & Hat & Hbefore).
  simpl in Ht. exists t. split; [lia|].
  rewrite shift_test in Hat by lia.
  destruct (Z.testbit oxo (7 - t)) eqn:E; [|discriminate].
  split; [congruence|]. split; [reflexivity|].
  intros j Hj. specialize (Hbefore j Hj). rewrite shift_test in Hbefore by lia.
  now destruct (Z.testbit oxo (7 - j)).
Qed.

Lemma scan_Next_inv (i a b : Z) :
  0 <= a < 256 -> 0 <= b < 256 -> scan i (Z.lxor a b) = Some Next -> a = b.
Proof.
  intros Ha Hb H. apply Z.lxor_eq, Z.bits_inj_0. intros k.
  destruct (Z.lt_ge_cases k 0) as [Hk | Hk]; [now apply Z.testbit_neg_r|].
  destruct (Z.lt_ge_cases k 8) as [Hk8 | Hk8].
  - pose proof (for_return_Next_inv _ _ _ H (7 - k)) as Hj. simpl in Hj.
    rewrite shift_test in Hj by lia.
    replace (7 - (7 - k)) with k in Hj by lia.
    destruct (Z.testbit (Z.lxor a b) k); [|reflexivity].
    assert (0 <= 7 - k < 0 + 8) as Hr by lia. specialize (Hj Hr). discriminate.
  - now rewrite Z.lxor_spec, !byte_high_bits.
Qed.

(** ** [proximity] *)

Example proximity_last_bit : proximity zero_address (addr_of_last 1) = Some 255.
Proof. vm_compute. reflexivity. Qed.

Example proximity_first_bit : proximity (addr_of_head 128) zero_address = Some 0.
Proof. vm_compute. reflexivity. Qed.

(** The order is the position of the first bit where the two differ ... *)
Lemma proximity_at (one other : Address) (pos trans a b : Z) :
  len other = len one ->
  0 <= pos < len one -> 0 <= trans < 8 ->
  (forall i, 0 <= i < pos -> index other i = index one i) ->
  index one pos = Some a -> index other pos = Some b ->
  (forall j, 0 <= j < trans -> Z.testbit (Z.lxor a b) (7 - j) = false) ->
  Z.testbit (Z.lxor a b) (7 - trans) = true ->
  proximity one other = Some (pos * 8 + trans).
Proof.
  intros Hlen Hpos Htrans Hsame Ha Hb Hlow Hbit. unfold proximity.
  rewrite for_return_first with (k := pos) (r := pos * 8 + trans); [reflexivity|lia| |].
  - intros i Hi. rewrite Hsame by lia.
    destruct (index_in_range one i) as (x & -> & _); [lia|].
    rewrite Z.lxor_nilpotent. apply scan_zero.
  - rewrite Ha, Hb. now apply scan_first.
Qed.

(** ... and the full width when there is none. *)
Lemma proximity_same (a : Address) : proximity a a = Some (len a * 8).
Proof.
  unfold proximity. rewrite for_return_all_next; [reflexivity|].
  intros i Hi. destruct (index_in_range a i) as (x & -> & _); [lia|].
  rewrite Z.lxor_nilpotent. apply scan_zero.
Qed.

(** [proximity] never panics on arrays of one length, and its result is in
    [0, len * 8]. *)
Lemma proximity_total (one other : Address) :
  len other = len one ->
  exists k, proximity one other = Some k /\ 0 <= k <= len one * 8.
Proof.
  intros Hlen. unfold proximity.
  destruct (for_return _ _ _) as [[|r]|] eqn:E.
  - eexists. split; [reflexivity|]. unfold len. lia.
  - exists r. split; [reflexivity|].
    apply for_return_Return_inv in E as (i & Hi & Hat & _).
    destruct (index one i), (index other i); try discriminate.
    apply scan_Return_inv in Hat as (t & Ht & -> & _). lia.
  - exfalso. revert E. apply for_return_no_panic. intros i Hi.
    destruct (index_in_range one i) as (x & -> & _); [lia|].
    destruct (index_in_range other i) as (y & -> & _); [lia|].
    apply scan_no_panic.
Qed.

(** What a result below the full width says about the two arrays. *)
Lemma proximity_lt_inv (one other : Address) (k : Z) :
  proximity one other = Some k -> k <> len one * 8 ->
  exists a b,
    0 <= k < len one * 8 /\
    index one (k / 8) = Some a /\ index other (k / 8) = Some b /\
    Z.testbit (Z.lxor a b) (7 - k mod 8) = true /\
    (forall j, 0 <= j < k mod 8 -> Z.testbit (Z.lxor a b) (7 - j) = false) /\
    (forall i, 0 <= i < k / 8 -> exists x y,
        index one i = Some x /\ index other i = Some y /\
        scan i (Z.lxor x y) = Some Next).
Proof.
  unfold proximity. intros H Hne.
  destruct (for_return _ _ _) as [[|r]|] eqn:E; try discriminate; [congruence|].
  injection H as ->.
  apply for_return_Return_inv in E as (i & Hi & Hat & Hbefore).
  destruct (index one i) as [a|] eqn:Ea; [|discriminate].
  destruct (index other i) as [b|] eqn:Eb; [|discriminate].
  apply scan_Return_inv in Hat as (t & Ht & -> & Hbit & Hlow).
  assert (Hdiv : (i * 8 + t) / 8 = i) by lia.
  assert (Hmod : (i * 8 + t) mod 8 = t) by lia.
  rewrite Hdiv, Hmod. exists a, b. repeat split; try assumption; try lia.
  intros i' Hi'. specialize (Hbefore i' ltac:(lia)).
  destruct (index one i') as [x|]; [|discriminate].
  destruct (index other i') as [y|]; [|discriminate].
  now exists x, y.
Qed.

(** C8.  Symmetry: for all 32-byte addresses [a] and [b], [proximity a b] and
    [proximity b a] return the same order. *)
Theorem proximity_symmetric (a b : Address) :
  is_addr a = true -> is_addr b = true ->
  exists k, proximity a b = Some k /\ proximity b a = Some k.
Proof.
  intros Ha Hb. apply is_addr_len in Ha, Hb.
  destruct (proximity_total a b) as (k & Hk & _); [congruence|].
  exists k. split; [exact Hk|]. rewrite <- Hk. unfold proximity.
  rewrite Hb, <- Ha.
  rewrite for_return_ext with (body' := fun i =>
    match index a i, index b i with
    | Some x, Some y => scan i (Z.lxor x y)
    | _, _ => None
    end); [reflexivity|].
  intros i _. destruct (index b i) as [y|], (index a i) as [x|]; try reflexivity.
  now rewrite (Z.lxor_comm y x).
Qed.

Lemma proximity_symmetric_witness :
  exists k, proximity (addr_of_head 1) (addr_of_last 1) = Some k /\
            proximity (addr_of_last 1) (addr_of_head 1) = Some k.
Proof. apply proximity_symmetric; reflexivity. Defined.

(** Only identical addresses reach the full width. *)
Lemma proximity_full_inv (a b : Address) :
  is_addr a = true -> is_addr b = true ->
  proximity a b = Some 256 -> a = b.
Proof.
  intros Ha Hb H.
  pose proof (is_addr_len _ Ha) as La. pose proof (is_addr_len _ Hb) as Lb.
  unfold proximity in H.
  destruct (for_return _ _ _) as [[|r]|] eqn:E; try discriminate.
  - apply index_ext; [congruence|]. intros i Hi.
    pose proof (for_return_Next_inv _ _ _ E i ltac:(lia)) as Hat. simpl in Hat.
    destruct (index a i) as [x|] eqn:Ex; [|discriminate].
    destruct (index b i) as [y|] eqn:Ey; [|discriminate].
    f_equal. apply (scan_Next_inv i); [| |exact Hat].
    + exact (index_is_byte _ _ _ Ha Ex).
    + exact (index_is_byte _ _ _ Hb Ey).
  - injection H as ->.
    apply for_return_Return_inv in E as (i & Hi & Hat & _).
    destruct (index a i), (index b i); try discriminate.
    apply scan_Return_inv in Hat as (t & Ht & Hr & _). lia.
Qed.

(** C9.  The full width, 256, is reached only by identical addresses: if
    [proximity a b] is 256 for 32-byte addresses [a] and [b], then [a = b]. *)
Theorem proximity_full_width_eq (a b : Address) :
  is_addr a = true -> is_addr b = true ->
  proximity a b = Some 256 -> a = b.
Proof. exact (proximity_full_inv a b). Qed.

Lemma proximity_full_width_eq_witness : addr_of_last 0 = zero_address.
Proof.
  apply (proximity_full_width_eq (addr_of_last 0) zero_address); reflexivity.
Defined.

(** ** [ProxCmp] *)

(** The loop of [ProxCmp] on the byte of index [i]. *)
Local Abbreviation cmp_body target a b :=
  (fun i : Z =>
     match index a i, index target i, index b i with
     | Some ai, Some ti, Some bi =>
         if Z.lxor ai ti >? Z.lxor bi ti then Some (Return 1)
         else if Z.lxor ai ti <? Z.lxor bi ti then Some (Return (-1))
         else Some Next
     | _, _, _ => None
     end).

Lemma cmp_body_Next_inv (target a b : Address) (i : Z) :
  cmp_body target a b i = Some Next -> index a i = index b i /\ index a i <> None.
Proof.
  cbv beta.
  destruct (index a i) as [ai|], (index target i) as [ti|], (index b i) as [bi|];
    try discriminate.
  destruct (Z.gtb_spec (Z.lxor ai ti) (Z.lxor bi ti)); [discriminate|].
  destruct (Z.ltb_spec (Z.lxor ai ti) (Z.lxor bi ti)); [discriminate|].
  intros _. split; [|discriminate]. f_equal.
  assert (E : Z.lxor ai ti = Z.lxor bi ti) by lia.
  apply (f_equal (fun z => Z.lxor z ti)) in E.
  now rewrite !Z.lxor_assoc, Z.lxor_nilpotent, !Z.lxor_0_r in E.
Qed.

Lemma cmp_body_Return_inv (target a b : Address) (i r : Z) :
  cmp_body target a b i = Some (Return r) -> r = 1 \/ r = -1.
Proof.
  cbv beta.
  destruct (index a i) as [ai|], (index target i) as [ti|], (index b i) as [bi|];
    try discriminate.
  destruct (_ >? _); [intros [= <-]; now left|].
  destruct (_ <? _); [intros [= <-]; now right|discriminate].
Qed.

Lemma ProxCmp_total (target a b : Address) :
  len a = len target -> len b = len target ->
  ProxCmp target a b = Some (-1) \/ ProxCmp target a b = Some 0 \/
  ProxCmp target a b = Some 1.
Proof.
  intros La Lb. unfold ProxCmp.
  destruct (for_return _ _ _) as [[|r]|] eqn:E.
  - right. now left.
  - apply for_return_Return_inv in E as (i & _ & Hat & _).
    apply cmp_body_Return_inv in Hat as [-> | ->]; [right; now right | now left].
  - exfalso. revert E. apply for_return_no_panic. intros i Hi.
    destruct (index_in_range a i) as (x & -> & _); [lia|].
    destruct (index_in_range target i) as (y & -> & _); [lia|].
    destruct (index_in_range b i) as (z & -> & _); [lia|].
    destruct (_ >? _); [discriminate|]. now destruct (_ <? _).
Qed.

Lemma ProxCmp_same (target a : Address) :
  len a = len target -> ProxCmp target a a = Some 0.
Proof.
  intros La. unfold ProxCmp. rewrite for_return_all_next; [reflexivity|].
  intros i Hi.
  destruct (index_in_range a i) as (x & -> & _); [lia|].
  destruct (index_in_range target i) as (y & -> & _); [lia|].
  now rewrite Z.gtb_ltb, Z.ltb_irrefl.
Qed.

Lemma ProxCmp_zero_inv (target a b : Address) :
  len a = len target -> len b = len target ->
  ProxCmp target a b = Some 0 -> a = b.
Proof.
  intros La Lb H. unfold ProxCmp in H.
  destruct (for_return _ _ _) as [[|r]|] eqn:E; try discriminate.
  - apply index_ext; [congruence|]. intros i Hi.
    pose proof (for_return_Next_inv _ _ _ E i ltac:(lia)) as Hat.
    now apply cmp_body_Next_inv in Hat.
  - apply for_return_Return_inv in E as (i & _ & Hat & _).
    apply cmp_body_Return_inv in Hat. injection H as ->. lia.
Qed.

(** C10.  For 32-byte addresses, [ProxCmp target a b] is 0 exactly when
    [a = b], whatever the target. *)
Theorem ProxCmp_zero_iff_eq (target a b : Address) :
  is_addr target = true -> is_addr a = true -> is_addr b = true ->
  ProxCmp target a b = Some 0 <-> a = b.
Proof.
  intros Ht Ha Hb. apply is_addr_len in Ht, Ha, Hb. split.
  - apply ProxCmp_zero_inv; congruence.
  - intros <-. apply ProxCmp_same. congruence.
Qed.

Lemma ProxCmp_zero_iff_eq_witness :
  ProxCmp (addr_of_last 7) (addr_of_head 1) (addr_of_head 1) = Some 0 <->
  addr_of_head 1 = addr_of_head 1.
Proof. apply ProxCmp_zero_iff_eq; reflexivity. Defined.

(** ** Filling the tail of an address *)

Section Fill.
Context {St : Type} (f : M St Z) (P : Z -> Prop).

(** The byte source does not panic, and its bytes satisfy [P]. *)
Hypothesis f_total : forall s, exists b s', f s = Some (b, s') /\ P b.

Lemma for_up_fill (n : nat) :
  forall (lo : Z) (addr : Address) (s : St),
    0 <= lo -> lo + Z.of_nat n <= len addr ->
    exists addr' s',
      for_up n lo (fun i addr => (do b <- f; lift (store addr i b))%go) addr s
        = Some (addr', s') /\
      len addr' = len addr /\
      (forall i, i < lo -> index addr' i = index addr i) /\
      (forall i, lo <= i < lo + Z.of_nat n -> exists b, index addr' i = Some b /\ P b).
Proof.
  induction n as [|n IH]; intros lo addr s Hlo Hhi.
  - exists addr, s. repeat split; auto. intros i Hi. lia.
  - cbn [for_up]. unfold bind at 1. unfold bind at 1.
    destruct (f_total s) as (b & s1 & -> & Hb).
    unfold lift. rewrite store_in_range by lia.
    destruct (IH (lo + 1) (<[Z.to_nat lo := b]> addr) s1) as
      (addr' & s' & Hrun & Hlen & Hlow & Hnew); [lia | rewrite len_insert; lia |].
    exists addr', s'. rewrite len_insert in Hlen. split; [exact Hrun|].
    split; [exact Hlen|]. split.
    + intros i Hi. rewrite Hlow by lia. apply index_insert_ne; lia.
    + intros i Hi. destruct (Z.eq_dec i lo) as [->|Hne].
      * exists b. split; [|exact Hb]. rewrite Hlow by lia.
        apply index_insert_eq. lia.
      * apply Hnew. lia.
Qed.

Lemma fill_after_spec (pos : Z) (addr : Address) (s : St) :
  -1 <= pos < len addr ->
  exists addr' s',
    fill_after pos f addr s = Some (addr', s') /\
    len addr' = len addr /\
    (forall i, i <= pos -> index addr' i = index addr i) /\
    (forall i, pos < i < len addr -> exists b, index addr' i = Some b /\ P b).
Proof.
  intros Hpos. unfold fill_after.
  destruct (for_up_fill (Z.to_nat (len addr - (pos + 1))) (pos + 1) addr s)
    as (addr' & s' & Hrun & Hlen & Hlow & Hnew); [lia | lia |].
  exists addr', s'. split; [exact Hrun|]. split; [exact Hlen|]. split.
  - intros i Hi. apply Hlow. lia.
  - intros i Hi. apply Hnew. lia.
Qed.
End Fill.

Lemma rand_byte_total (s : Rand) :
  exists b s', rand_byte s = Some (b, s') /\ 0 <= b < 255.
Proof.
  unfold rand_byte, bind, Intn, ret. simpl.
  eexists _, _. split; [reflexivity|].
  pose proof (Z.mod_pos_bound (draws s (cursor s)) 255 ltac:(lia)).
  rewrite byte_of_small; lia.
Qed.

Lemma ret_total {St} (b : Z) (s : St) :
  exists b' s', @ret St Z b s = Some (b', s') /\ b' = b.
Proof. now exists b, s. Qed.

(** ** [RandomAddressAt] *)

Ltac below8 x :=
  let H := fresh in
  assert (x = 0 \/ x = 1 \/ x = 2 \/ x = 3 \/ x = 4 \/ x = 5 \/ x = 6 \/ x = 7)
    as H by lia;
  destruct H as [-> | [-> | [-> | [-> | [-> | [-> | [-> | ->]]]]]]].

(** [transbytea]: the [trans + 1] most significant bits. *)
Lemma transbytea_bits (trans k : Z) :
  0 <= trans < 8 -> 0 <= k < 8 ->
  Z.testbit
    (for_pure (Z.to_nat (trans + 1)) 0
       (fun j t => Z.lor t (byte_of (Z.shiftl 1 (byte_of (7 - j))))) 0) k
  = (7 - trans <=? k).
Proof. intros Ht Hk. below8 trans; below8 k; reflexivity. Qed.

(** [flipbyte]: the bit [trans] from the top alone. *)
Lemma flipbyte_bits (trans k : Z) :
  0 <= trans < 8 -> 0 <= k < 8 ->
  Z.testbit (byte_of (Z.shiftl 1 (byte_of (7 - trans)))) k = (k =? 7 - trans).
Proof. intros Ht Hk. below8 trans; below8 k; reflexivity. Qed.

Lemma testbit_255 (k : Z) : 0 <= k -> Z.testbit 255 k = (k <? 8).
Proof. intros Hk. change 255 with (Z.ones 8). apply Z.testbit_ones_nonneg; lia. Qed.

(** The byte written at [pos]: it keeps the bits before [trans] and flips the
    bit [trans], whatever the random byte. *)
Lemma flipped_byte_bits (trans old randbyte : Z) :
  0 <= trans < 8 ->
  let transbytea :=
    for_pure (Z.to_nat (trans + 1)) 0
      (fun j t => Z.lor t (byte_of (Z.shiftl 1 (byte_of (7 - j))))) 0 in
  let flipbyte := byte_of (Z.shiftl 1 (byte_of (7 - trans))) in
  let transbyteb := Z.lxor transbytea (byte_of 255) in
  let new := Z.lor (Z.lxor (Z.land old transbytea) flipbyte)
                   (Z.land randbyte transbyteb) in
  (forall j, 0 <= j < trans -> Z.testbit (Z.lxor old new) (7 - j) = false) /\
  Z.testbit (Z.lxor old new) (7 - trans) = true.
Proof.
  intros Ht transbytea flipbyte transbyteb new.
  assert (Hbit : forall k, 7 - trans <= k < 8 ->
            Z.testbit (Z.lxor old new) k = (k =? 7 - trans)).
  { intros k Hk. unfold new, transbyteb, flipbyte, transbytea.
    rewrite Z.lxor_spec, Z.lor_spec, Z.lxor_spec, !Z.land_spec, Z.lxor_spec.
    rewrite transbytea_bits, flipbyte_bits by lia.
    change (byte_of 255) with 255. rewrite testbit_255 by lia.
    replace (7 - trans <=? k) with true by lia.
    replace (k <? 8) with true by lia.
    destruct (Z.testbit old k), (Z.testbit randbyte k), (k =? 7 - trans);
      reflexivity. }
  split.
  - intros j Hj. rewrite Hbit by lia. lia.
  - rewrite Hbit by lia. lia.
Qed.

(** With [0 <= prox < len * 8] the result diverges from [r] at bit [prox]. *)
Lemma RandomAddressAt_diverges (r : Address) (prox : Z) (rnd : Rand) :
  len r = 32 -> 0 <= prox < 256 ->
  exists addr rnd',
    RandomAddressAt r prox rnd = Some (addr, rnd') /\
    proximity r addr = Some prox.
Proof.
  intros Lr Hprox.
  unfold RandomAddressAt.
  replace (prox >=? 0) with true by lia.
  set (pos := Z.quot prox 8). set (trans := Z.rem prox 8).
  assert (Hpos : 0 <= pos < 32) by (unfold pos; lia).
  assert (Htrans : 0 <= trans < 8) by (unfold trans; lia).
  unfold bind at 1. unfold bind at 1.
  destruct (rand_byte_total rnd) as (randbyte & rnd1 & -> & _).
  unfold bind at 1. unfold lift at 1.
  destruct (index_in_range r pos) as (old & Hold & _); [lia|]. rewrite Hold.
  unfold bind at 1. unfold lift at 1. rewrite store_in_range by lia.
  unfold ret.
  match goal with |- context [<[Z.to_nat pos := ?v]> r] => set (new := v) end.
  destruct (fill_after_spec rand_byte (fun b => 0 <= b < 255) rand_byte_total
              pos (<[Z.to_nat pos := new]> r) rnd1)
    as (addr & rnd' & Hrun & Hlen & Hlow & _); [rewrite len_insert; lia|].
  exists addr, rnd'. split; [exact Hrun|].
  rewrite len_insert in Hlen.
  destruct (flipped_byte_bits trans old randbyte Htrans) as [Hsame Hflip].
  replace prox with (pos * 8 + trans) by (unfold pos, trans; lia).
  apply proximity_at with (a := old) (b := new); try assumption; try lia.
  - intros i Hi. rewrite Hlow by lia. apply index_insert_ne; lia.
  - rewrite Hlow by lia. apply index_insert_eq. lia.
Qed.

(** C1.  For every 32-byte reference [r], every [prox] with [0 <= prox < 256]
    and every state of the random source, [RandomAddressAt r prox] returns an
    address whose proximity order to [r] is exactly [prox]. *)
Theorem RandomAddressAt_proximity (r : Address) (prox : Z) (rnd : Rand) :
  is_addr r = true -> 0 <= prox < 256 ->
  exists addr rnd',
    RandomAddressAt r prox rnd = Some (addr, rnd') /\
    proximity r addr = Some prox.
Proof.
  intros Hr Hprox. apply RandomAddressAt_diverges; [now apply is_addr_len | exact Hprox].
Qed.

Lemma RandomAddressAt_proximity_witness :
  exists addr rnd',
    RandomAddressAt (addr_of_head 200) 13 (rnd_of [254; 17; 3]) = Some (addr, rnd') /\
    proximity (addr_of_head 200) addr = Some 13.
Proof. apply RandomAddressAt_proximity; [reflexivity | lia]. Defined.

(** With a negative [prox] the branch that sets [pos] is skipped, [pos] keeps
    its zero value, and the loop starts at [pos + 1 = 1]. *)
Lemma RandomAddressAt_negative (self : Address) (prox : Z) (rnd : Rand) :
  0 < len self -> prox < 0 ->
  exists addr rnd',
    RandomAddressAt self prox rnd = Some (addr, rnd') /\
    len addr = len self /\
    index addr 0 = index self 0 /\
    (forall i, 0 < i < len self -> exists b, index addr i = Some b /\ 0 <= b < 255).
Proof.
  intros Hlen Hprox. unfold RandomAddressAt.
  replace (prox >=? 0) with false by lia.
  unfold bind at 1. unfold ret at 1.
  destruct (fill_after_spec rand_byte (fun b => 0 <= b < 255) rand_byte_total
              0 self rnd)
    as (addr & rnd' & Hrun & Hl & Hlow & Hnew); [lia|].
  exists addr, rnd'. split; [exact Hrun|]. split; [exact Hl|]. split.
  - apply Hlow. lia.
  - exact Hnew.
Qed.

(** C4 (as the code has it).  For every 32-byte [self], every [prox < 0] and
    every state of the random source, [RandomAddressAt self prox] returns an
    address whose byte 0 is the byte 0 of [self]: only the bytes 1 to 31 are
    drawn. *)
Theorem RandomAddressAt_negative_keeps_byte0 (self : Address) (prox : Z) (rnd : Rand) :
  is_addr self = true -> prox < 0 ->
  exists addr rnd',
    RandomAddressAt self prox rnd = Some (addr, rnd') /\
    index addr 0 = index self 0.
Proof.
  intros Hs Hprox. apply is_addr_len in Hs.
  destruct (RandomAddressAt_negative self prox rnd) as (addr & rnd' & H & _ & H0 & _);
    [lia | assumption |].
  now exists addr, rnd'.
Qed.

Lemma RandomAddressAt_negative_keeps_byte0_witness :
  exists addr rnd',
    RandomAddressAt (addr_of_head 77) (-1) (rnd_of [1; 2; 3]) = Some (addr, rnd') /\
    index addr 0 = index (addr_of_head 77) 0.
Proof. apply RandomAddressAt_negative_keeps_byte0; [reflexivity | lia]. Defined.

(** The same stream gives different results for two references that differ in
    byte 0, and [RandomAddress] starts with the zero byte of [Address{}]. *)
Lemma RandomAddressAt_negative_depends_on_self :
  option_map fst (RandomAddressAt (addr_of_head 1) (-1) (rnd_of [7; 8; 9]))
    = Some (1 :: 7 :: 8 :: 9 :: repeat 0 28) /\
  option_map fst (RandomAddressAt (addr_of_head 2) (-1) (rnd_of [7; 8; 9]))
    = Some (2 :: 7 :: 8 :: 9 :: repeat 0 28).
Proof. split; vm_compute; reflexivity. Qed.

Lemma RandomAddress_byte0 (rnd : Rand) :
  exists addr rnd', RandomAddress rnd = Some (addr, rnd') /\ index addr 0 = Some 0.
Proof.
  destruct (RandomAddressAt_negative zero_address (-1) rnd) as (addr & rnd' & H & _ & H0 & _);
    [reflexivity | lia |].
  exists addr, rnd'. split; [exact H | exact H0].
Qed.

(** For [0 <= prox < 256] and for negative [prox] the generation does not
    panic. *)
Lemma RandomAddressAt_total (self : Address) (prox : Z) (rnd : Rand) :
  is_addr self = true -> prox < 256 ->
  exists addr rnd', RandomAddressAt self prox rnd = Some (addr, rnd').
Proof.
  intros Hs Hprox. apply is_addr_len in Hs. destruct (Z.lt_ge_cases prox 0) as [Hneg | Hpos].
  - destruct (RandomAddressAt_negative self prox rnd) as (addr & rnd' & H & _);
      [lia | exact Hneg |].
    now exists addr, rnd'.
  - destruct (RandomAddressAt_diverges self prox rnd) as (addr & rnd' & H & _);
      [exact Hs | lia |].
    now exists addr, rnd'.
Qed.

(** ** [CommonBitsAddrF] *)

(** The byte that [CommonBitsAddrF] writes at [pos], from the old byte [x]
    and the byte [b] that [f] supplied; [prox] is the capped order. *)
Local Abbreviation boundary p prox x b :=
  (Z.lor
     (if p >? prox
      then Z.lxor
             (Z.land x
                (Z.lxor (Z.shiftr (if p >? prox then 127 else 255)
                           (byte_of (Z.rem prox 8))) 255))
             (Z.shiftr 128 (byte_of (Z.rem prox 8)))
      else Z.land x
             (Z.lxor (Z.shiftr (if p >? prox then 127 else 255)
                        (byte_of (Z.rem prox 8))) 255))
     (Z.land (Z.shiftr (if p >? prox then 127 else 255) (byte_of (Z.rem prox 8))) b)).

Section CommonBits.
Context {St : Type} (f : M St Z) (P : Z -> Prop).
Hypothesis f_total : forall s, exists b s', f s = Some (b, s') /\ P b.

(** When the capped order falls inside the array: the bytes before [pos] are
    those of [self], the byte at [pos] is the boundary byte, and the bytes
    after it come from [f]. *)
Lemma CommonBitsAddrF_run (self other : Address) (p q : Z) (s : St) :
  proximity self other = Some q ->
  let prox := if p <=? q then p else q in
  0 <= Z.quot prox 8 < len self ->
  exists x b s1 addr s',
    index self (Z.quot prox 8) = Some x /\ f s = Some (b, s1) /\ P b /\
    CommonBitsAddrF self other f p s = Some (addr, s') /\
    len addr = len self /\
    (forall i, i < Z.quot prox 8 -> index addr i = index self i) /\
    index addr (Z.quot prox 8) = Some (boundary p prox x b) /\
    (forall i, Z.quot prox 8 < i < len self -> exists b', index addr i = Some b' /\ P b').
Proof.
  intros Hq prox Hpos. unfold CommonBitsAddrF.
  unfold bind at 1. unfold lift at 1. rewrite Hq. cbv zeta. fold prox.
  set (pos := Z.quot prox 8) in *.
  destruct (index_in_range self pos) as (x & Hx & _); [lia|].
  unfold bind at 1. unfold lift at 1. rewrite Hx.
  unfold bind at 1. destruct (f_total s) as (b & s1 & Hf & Hb). rewrite Hf.
  unfold bind at 1. unfold lift at 1. rewrite store_in_range by lia.
  match goal with |- context [<[Z.to_nat pos := ?v]> self] => set (new := v) end.
  destruct (fill_after_spec f P f_total pos (<[Z.to_nat pos := new]> self) s1)
    as (addr & s' & Hrun & Hlen & Hlow & Hnew); [rewrite len_insert; lia|].
  rewrite len_insert in Hlen, Hnew.
  exists x, b, s1, addr, s'.
  split; [reflexivity|]. split; [reflexivity|]. split; [exact Hb|].
  split; [exact Hrun|]. split; [exact Hlen|].
  split; [|split].
  - intros i Hi. rewrite Hlow by lia. apply index_insert_ne; lia.
  - rewrite Hlow by lia. apply index_insert_eq. lia.
  - exact Hnew.
Qed.

(** When it falls outside, the read of [addr[pos]] panics. *)
Lemma CommonBitsAddrF_panics (self other : Address) (p q : Z) (s : St) :
  proximity self other = Some q ->
  let prox := if p <=? q then p else q in
  ~ (0 <= Z.quot prox 8 < len self) ->
  CommonBitsAddrF self other f p s = None.
Proof.
  intros Hq prox Hpos. unfold CommonBitsAddrF.
  unfold bind at 1. unfold lift at 1. rewrite Hq. cbv zeta. fold prox.
  unfold bind at 1. unfold lift at 1.
  now rewrite index_out_of_range.
Qed.
End CommonBits.

(** *** Bits of the boundary byte *)

Lemma testbit_127 (k : Z) : 0 <= k -> Z.testbit 127 k = (k <? 7).
Proof. intros Hk. change 127 with (Z.ones 7). apply Z.testbit_ones_nonneg; lia. Qed.

Lemma testbit_128 (k : Z) : Z.testbit 128 k = (7 =? k).
Proof. change 128 with (2 ^ 7). apply Z.pow2_bits_eqb. lia. Qed.

(** Capped ([p <= proximity]): the bits before [trans] are kept, the others
    are those of the fill byte; no bit is flipped. *)
Lemma boundary_capped_bits (p x b k : Z) :
  0 <= p -> 0 <= k < 8 ->
  Z.testbit (boundary p p x b) k =
  if 7 - p mod 8 <? k then Z.testbit x k else Z.testbit b k.
Proof.
  intros Hp Hk. rewrite Z.gtb_ltb, Z.ltb_irrefl.
  rewrite byte_of_small by lia.
  rewrite Z.lor_spec, !Z.land_spec, Z.lxor_spec, Z.shiftr_spec, !testbit_255 by lia.
  replace (Z.rem p 8) with (p mod 8) by lia.
  destruct (Z.ltb_spec (7 - p mod 8) k).
  - replace (k + p mod 8 <? 8) with false by lia.
    replace (k <? 8) with true by lia.
    now destruct (Z.testbit x k).
  - replace (k + p mod 8 <? 8) with true by lia.
    replace (k <? 8) with true by lia.
    now destruct (Z.testbit x k).
Qed.

(** Not capped ([proximity < p]): the bits before [trans] are kept, the bit
    [trans] is flipped, the others are those of the fill byte. *)
Lemma boundary_flip_bits (p q x b k : Z) :
  0 <= q < p -> 0 <= k < 8 ->
  Z.testbit (boundary p q x b) k =
  if 7 - q mod 8 <? k then Z.testbit x k
  else if k =? 7 - q mod 8 then negb (Z.testbit x k)
  else Z.testbit b k.
Proof.
  intros Hq Hk. replace (p >? q) with true by lia.
  rewrite byte_of_small by lia.
  rewrite Z.lor_spec, Z.lxor_spec, !Z.land_spec, Z.lxor_spec, !Z.shiftr_spec,
    testbit_255, testbit_127, testbit_128 by lia.
  replace (Z.rem q 8) with (q mod 8) by lia.
  replace (k <? 8) with true by lia.
  destruct (Z.ltb_spec (7 - q mod 8) k); [|destruct (Z.eqb_spec k (7 - q mod 8))].
  - replace (k + q mod 8 <? 7) with false by lia.
    replace (7 =? k + q mod 8) with false by lia.
    now destruct (Z.testbit x k).
  - replace (k + q mod 8 <? 7) with false by lia.
    replace (7 =? k + q mod 8) with true by lia.
    now destruct (Z.testbit x k).
  - replace (k + q mod 8 <? 7) with true by lia.
    replace (7 =? k + q mod 8) with false by lia.
    now destruct (Z.testbit x k).
Qed.

Lemma lor_ge (y z : Z) : 0 <= y -> 0 <= z -> y <= Z.lor y z.
Proof.
  intros Hy Hz.
  assert (Hdisj : Z.land y (Z.ldiff z y) = 0).
  { apply Z.bits_inj_0. intros n. rewrite Z.land_spec, Z.ldiff_spec.
    now destruct (Z.testbit y n), (Z.testbit z n). }
  assert (Hlor : Z.lor y z = Z.lor y (Z.ldiff z y)).
  { apply Z.bits_inj'. intros n _. rewrite !Z.lor_spec, Z.ldiff_spec.
    now destruct (Z.testbit y n), (Z.testbit z n). }
  rewrite Hlor, <- Z.add_nocarry_lor by exact Hdisj.
  assert (0 <= Z.ldiff z y) by (apply Z.ldiff_nonneg; now left). lia.
Qed.

(** With the fills of [KeyRange] the boundary bytes are ordered. *)
Lemma boundary_capped_le (p x : Z) :
  0 <= x -> boundary p p x 0 <= boundary p p x 255.
Proof.
  intros Hx. rewrite Z.gtb_ltb, Z.ltb_irrefl.
  rewrite Z.land_0_r, Z.lor_0_r. apply lor_ge.
  - apply Z.land_nonneg. now left.
  - apply Z.land_nonneg. right. lia.
Qed.

(** *** Bits and order of addresses *)

Lemma bit_at_index (a : Address) (i x : Z) :
  index a (i / 8) = Some x -> bit_at a i = Z.testbit x (7 - i mod 8).
Proof. intros H. unfold bit_at. now rewrite H. Qed.

Lemma bit_at_same_byte (a b : Address) (i : Z) :
  index a (i / 8) = index b (i / 8) -> bit_at a i = bit_at b i.
Proof. intros H. unfold bit_at. now rewrite H. Qed.

Lemma index_of_lookup (a : Address) (n : nat) (x : Z) :
  a !! n = Some x -> index a (Z.of_nat n) = Some x.
Proof.
  intros H. pose proof (lookup_lt_Some _ _ _ H) as Hn.
  destruct (index_in_range a (Z.of_nat n)) as (y & Hy & Hl); [unfold len; lia|].
  rewrite Nat2Z.id in Hl. congruence.
Qed.

Lemma addr_le_pointwise (a b : Address) : Forall2 Z.le a b -> addr_le a b = true.
Proof.
  induction 1 as [|x y a b Hxy _ IH]; [reflexivity|].
  simpl. rewrite IH. destruct (Z.ltb_spec x y); [reflexivity|].
  simpl. rewrite andb_true_r. lia.
Qed.

Lemma addr_le_index (a b : Address) :
  len a = len b ->
  (forall i x y, index a i = Some x -> index b i = Some y -> x <= y) ->
  addr_le a b = true.
Proof.
  intros Hlen H. apply addr_le_pointwise, Forall2_same_length_lookup_2.
  - unfold len in Hlen. lia.
  - intros n x y Hx Hy. apply (H (Z.of_nat n)); now apply index_of_lookup.
Qed.

Lemma prefix_bits_capped (self addr : Address) (p x b : Z) :
  0 <= p ->
  index self (p / 8) = Some x ->
  index addr (p / 8) = Some (boundary p p x b) ->
  (forall i, i < p / 8 -> index addr i = index self i) ->
  (forall i, 0 <= i < p -> bit_at addr i = bit_at self i) /\
  bit_at addr p = Z.testbit b (7 - p mod 8).
Proof.
  intros Hp Hx Hnew Hlow. split.
  - intros i Hi. destruct (Z.eq_dec (i / 8) (p / 8)) as [E | E].
    + rewrite (bit_at_index addr i (boundary p p x b)) by now rewrite E.
      rewrite (bit_at_index self i x) by now rewrite E.
      rewrite boundary_capped_bits by lia.
      now replace (7 - p mod 8 <? 7 - i mod 8) with true by lia.
    + apply bit_at_same_byte, Hlow. lia.
  - rewrite (bit_at_index addr p (boundary p p x b)) by exact Hnew.
    rewrite boundary_capped_bits by lia.
    now rewrite Z.ltb_irrefl.
Qed.

Lemma prefix_bits_flip (self addr : Address) (p q x b : Z) :
  0 <= q < p ->
  index self (q / 8) = Some x ->
  index addr (q / 8) = Some (boundary p q x b) ->
  (forall i, i < q / 8 -> index addr i = index self i) ->
  (forall i, 0 <= i < q -> bit_at addr i = bit_at self i) /\
  bit_at addr q = negb (bit_at self q).
Proof.
  intros Hq Hx Hnew Hlow. split.
  - intros i Hi. destruct (Z.eq_dec (i / 8) (q / 8)) as [E | E].
    + rewrite (bit_at_index addr i (boundary p q x b)) by now rewrite E.
      rewrite (bit_at_index self i x) by now rewrite E.
      rewrite boundary_flip_bits by lia.
      now replace (7 - q mod 8 <? 7 - i mod 8) with true by lia.
    + apply bit_at_same_byte, Hlow. lia.
  - rewrite (bit_at_index addr q (boundary p q x b)) by exact Hnew.
    rewrite (bit_at_index self q x) by exact Hx.
    rewrite boundary_flip_bits by lia.
    now rewrite Z.ltb_irrefl, Z.eqb_refl.
Qed.

(** The two ways the source caps an order. *)
Lemma cap_geb (q p : Z) : (if q >=? p then p else q) = Z.min q p.
Proof. rewrite Z.geb_leb. destruct (Z.leb_spec p q); lia. Qed.

Lemma cap_leb (p q : Z) : (if p <=? q then p else q) = Z.min p q.
Proof. destruct (Z.leb_spec p q); lia. Qed.

(** ** [KeyRange] *)

(** [CommonBitsAddrByte] under the cap of [KeyRange]. *)
Lemma CommonBitsAddrByte_capped (one other : Address) (fill k q : Z) :
  proximity one other = Some q -> k <= q ->
  0 <= Z.quot k 8 < len one ->
  exists x addr,
    index one (Z.quot k 8) = Some x /\
    CommonBitsAddrByte one other fill k = Some addr /\
    len addr = len one /\
    (forall i, i < Z.quot k 8 -> index addr i = index one i) /\
    index addr (Z.quot k 8) = Some (boundary k k x fill) /\
    (forall i, Z.quot k 8 < i < len one -> index addr i = Some fill).
Proof.
  intros Hq Hk Hpos.
  pose proof (CommonBitsAddrF_run (ret fill) (fun b => b = fill) (ret_total fill)
                one other k q tt Hq) as H.
  cbv zeta in H. replace (k <=? q) with true in H by lia.
  destruct (H Hpos) as (x & b & s1 & addr & s' & Hx & Hf & -> & Hrun & Hlen & Hlow & Hat & Hnew).
  exists x, addr. unfold CommonBitsAddrByte. rewrite Hrun.
  split; [exact Hx|]. split; [reflexivity|]. split; [exact Hlen|].
  split; [exact Hlow|]. split; [exact Hat|].
  intros i Hi. destruct (Hnew i Hi) as (b' & Hb' & ->). exact Hb'.
Qed.

(** Where [KeyRange] returns: the capped order [k] falls inside the array,
    that is [-8 < k < len * 8] (Go's [/] truncates towards zero). *)
Lemma KeyRange_returns (one other : Address) (proxLimit q : Z) :
  is_addr one = true ->
  proximity one other = Some q ->
  -8 < Z.min q proxLimit < 256 ->
  exists start stop,
    KeyRange one other proxLimit = Some (start, stop) /\
    (forall i, 0 <= i < Z.min q proxLimit ->
       bit_at start i = bit_at one i /\ bit_at stop i = bit_at one i) /\
    addr_le start stop = true.
Proof.
  intros Hone Hq Hk. pose proof (is_addr_len _ Hone) as Lone.
  unfold KeyRange. rewrite Hq. cbv zeta.
  rewrite cap_geb.
  set (k := Z.min q proxLimit) in *.
  destruct (CommonBitsAddrByte_capped one other 0 k q Hq) as
    (x & start & Hx & -> & Lstart & Hlow0 & Hat0 & Hnew0); [lia | lia |].
  destruct (CommonBitsAddrByte_capped one other 255 k q Hq) as
    (x' & stop & Hx' & -> & Lstop & Hlow1 & Hat1 & Hnew1); [lia | lia |].
  assert (x' = x) as -> by congruence.
  exists start, stop. split; [reflexivity|]. split.
  - intros i Hi. assert (Hk0 : 0 <= k) by lia.
    replace (Z.quot k 8) with (k / 8) in * by lia.
    split.
    + now apply (prefix_bits_capped one start k x 0).
    + now apply (prefix_bits_capped one stop k x 255).
  - apply addr_le_index; [congruence|]. intros i a b Ha Hb.
    pose proof (index_inv _ _ _ Ha) as [Hi _]. rewrite Lstart in Hi.
    destruct (Z.lt_trichotomy i (Z.quot k 8)) as [Hlt | [-> | Hgt]].
    + rewrite Hlow0 in Ha by exact Hlt. rewrite Hlow1 in Hb by exact Hlt.
      assert (a = b) by congruence. lia.
    + rewrite Hat0 in Ha. rewrite Hat1 in Hb.
      injection Ha as <-. injection Hb as <-.
      apply boundary_capped_le.
      pose proof (index_is_byte _ _ _ Hone Hx). lia.
    + rewrite Hnew0 in Ha by lia. rewrite Hnew1 in Hb by lia.
      injection Ha as <-. injection Hb as <-. lia.
Qed.

(** Outside that range [KeyRange] panics. *)
Lemma KeyRange_panics (one other : Address) (proxLimit q : Z) :
  is_addr one = true ->
  proximity one other = Some q ->
  Z.min q proxLimit <= -8 \/ 256 <= Z.min q proxLimit ->
  KeyRange one other proxLimit = None.
Proof.
  intros Hone Hq Hk. pose proof (is_addr_len _ Hone) as Lone.
  unfold KeyRange. rewrite Hq. cbv zeta.
  rewrite cap_geb.
  set (k := Z.min q proxLimit) in *.
  unfold CommonBitsAddrByte.
  pose proof (CommonBitsAddrF_panics (ret 0) one other k q tt Hq) as H.
  cbv zeta in H. replace (k <=? q) with true in H by lia.
  rewrite H by lia. reflexivity.
Qed.

(** [KeyRange] has no result where the capped order leaves the array: a
    limit of -8 or below, and the full width 256 on identical addresses. *)
Lemma KeyRange_no_range :
  KeyRange zero_address (addr_of_last 1) (-8) = None /\
  KeyRange zero_address zero_address 256 = None.
Proof. split; vm_compute; reflexivity. Qed.

(** C2.  For 32-byte addresses [one], [other] and every integer [proxLimit]:
    whenever [(start, stop)] is the output of [KeyRange one other proxLimit],
    with [k = min (proximity one other) proxLimit], the leading [k] bits of
    [start] and of [stop] are those of [one], and [start <= stop] as
    big-endian unsigned byte sequences. *)
Theorem KeyRange_prefix_and_order (one other : Address) (proxLimit : Z)
    (start stop : Address) :
  is_addr one = true -> is_addr other = true ->
  KeyRange one other proxLimit = Some (start, stop) ->
  exists q,
    proximity one other = Some q /\
    (forall i, 0 <= i < Z.min q proxLimit ->
       bit_at start i = bit_at one i /\ bit_at stop i = bit_at one i) /\
    addr_le start stop = true.
Proof.
  intros Hone Hother Hrun.
  pose proof (is_addr_len _ Hone) as Lone. pose proof (is_addr_len _ Hother) as Lother.
  destruct (proximity_total one other) as (q & Hq & _); [congruence|].
  exists q. split; [exact Hq|].
  destruct (Z.le_gt_cases (Z.min q proxLimit) (-8)) as [Hlow | Hlow].
  { rewrite (KeyRange_panics one other proxLimit q Hone Hq) in Hrun by (left; exact Hlow).
    discriminate. }
  destruct (Z.le_gt_cases 256 (Z.min q proxLimit)) as [Hhigh | Hhigh].
  { rewrite (KeyRange_panics one other proxLimit q Hone Hq) in Hrun by (right; exact Hhigh).
    discriminate. }
  destruct (KeyRange_returns one other proxLimit q Hone Hq ltac:(lia))
    as (start' & stop' & Hrun' & Hbits & Hle).
  rewrite Hrun in Hrun'. injection Hrun' as <- <-.
  split; [exact Hbits | exact Hle].
Qed.

Lemma KeyRange_prefix_and_order_witness :
  exists q,
    proximity (addr_of_head 200) (addr_of_head 192) = Some q /\
    (forall i, 0 <= i < Z.min q 3 ->
       bit_at (addr_of_head 192) i = bit_at (addr_of_head 200) i /\
       bit_at (223 :: repeat 255 31) i = bit_at (addr_of_head 200) i) /\
    addr_le (addr_of_head 192) (223 :: repeat 255 31) = true.
Proof.
  apply (KeyRange_prefix_and_order (addr_of_head 200) (addr_of_head 192) 3);
    [reflexivity | reflexivity | vm_compute; reflexivity].
Defined.

(** C3 (as the code has it).  A request at the full width 256 reads
    [addr[32]] of a 32-byte array: [RandomAddressAt a 256] and
    [KeyRange a a 256] panic for every 32-byte address [a]. *)
Theorem full_width_request_panics (a : Address) (rnd : Rand) :
  is_addr a = true ->
  RandomAddressAt a 256 rnd = None /\ KeyRange a a 256 = None.
Proof.
  intros Ha. pose proof (is_addr_len _ Ha) as La. split.
  - unfold RandomAddressAt. change (256 >=? 0) with true. cbv iota zeta.
    change (Z.quot 256 8) with 32.
    unfold bind at 1. unfold bind at 1.
    destruct (rand_byte_total rnd) as (randbyte & rnd1 & -> & _).
    unfold bind at 1. unfold lift at 1.
    now rewrite index_out_of_range by lia.
  - apply KeyRange_panics with (q := 256); [exact Ha | | lia].
    rewrite proximity_same. f_equal. lia.
Qed.

Lemma full_width_request_panics_witness :
  RandomAddressAt zero_address 256 (rnd_of [1; 2; 3]) = None /\
  KeyRange zero_address zero_address 256 = None.
Proof. apply full_width_request_panics. reflexivity. Defined.

(** The rest of C3 holds: below the full width nothing panics. *)
Lemma proximity_in_range (a b : Address) :
  is_addr a = true -> is_addr b = true ->
  exists k, proximity a b = Some k /\ 0 <= k <= 256.
Proof.
  intros Ha Hb. apply is_addr_len in Ha, Hb.
  destruct (proximity_total a b) as (k & Hk & Hr); [congruence|].
  exists k. split; [exact Hk | lia].
Qed.

Lemma proximity_self (a : Address) : is_addr a = true -> proximity a a = Some 256.
Proof. intros Ha. apply is_addr_len in Ha. rewrite proximity_same. f_equal. lia. Qed.

Lemma KeyRange_total_below_full_width (one other : Address) (proxLimit : Z) :
  is_addr one = true -> is_addr other = true -> 0 <= proxLimit < 256 ->
  exists start stop, KeyRange one other proxLimit = Some (start, stop).
Proof.
  intros Hone Hother Hp.
  destruct (proximity_in_range one other Hone Hother) as (q & Hq & Hr).
  destruct (KeyRange_returns one other proxLimit q Hone Hq) as (start & stop & H & _);
    [lia|].
  now exists start, stop.
Qed.

(** The bit at the proximity order is where the two addresses differ. *)
Lemma proximity_bit_differs (one other : Address) (q : Z) :
  proximity one other = Some q -> q <> len one * 8 ->
  bit_at other q = negb (bit_at one q).
Proof.
  intros Hq Hne.
  destruct (proximity_lt_inv one other q Hq Hne) as (a & b & _ & Ha & Hb & Hbit & _).
  rewrite (bit_at_index _ _ _ Ha), (bit_at_index _ _ _ Hb).
  rewrite Z.lxor_spec in Hbit.
  now destruct (Z.testbit a _), (Z.testbit b _).
Qed.

(** C5 (amended).  In [CommonBitsAddrF self other f p], with
    [q = proximity self other] and the capped order [min p q] inside the
    array: the leading [min p q] bits of the result are those of [self]; when
    [p] is above [q] (the cap does not bind) the next bit, bit [q], is flipped
    relative to [self]; when [p <= q] (the cap binds) no bit is flipped, and
    bit [p] is the bit of the first byte that [f] supplies. *)
Theorem CommonBitsAddrF_divergence_bit {St : Type} (f : M St Z)
    (self other : Address) (p q : Z) (s : St) :
  (forall s, exists b s', f s = Some (b, s')) ->
  is_addr self = true -> is_addr other = true ->
  proximity self other = Some q -> 0 <= Z.min p q < 256 ->
  exists b s1 addr s',
    f s = Some (b, s1) /\
    CommonBitsAddrF self other f p s = Some (addr, s') /\
    (forall i, 0 <= i < Z.min p q -> bit_at addr i = bit_at self i) /\
    bit_at addr (Z.min p q) =
      if q <? p then negb (bit_at self q) else Z.testbit b (7 - p mod 8).
Proof.
  intros Hf Hself Hother Hq Hk.
  pose proof (is_addr_len _ Hself) as Lself.
  assert (Hf' : forall s, exists b s', f s = Some (b, s') /\ True).
  { intros s0. destruct (Hf s0) as (b & s' & H). now exists b, s'. }
  pose proof (CommonBitsAddrF_run f (fun _ => True) Hf' self other p q s Hq) as H.
  cbv zeta in H.
  rewrite cap_leb in H.
  set (k := Z.min p q) in *.
  replace (Z.quot k 8) with (k / 8) in H by lia.
  destruct H as (x & b & s1 & addr & s' & Hx & Hfs & _ & Hrun & _ & Hlow & Hat & _);
    [lia|].
  exists b, s1, addr, s'. split; [exact Hfs|]. split; [exact Hrun|].
  destruct (Z.ltb_spec q p) as [Hlt | Hge].
  - assert (k = q) as Ek by lia. rewrite Ek in *.
    now apply (prefix_bits_flip self addr p q x b).
  - assert (k = p) as Ek by lia. rewrite Ek in *.
    now apply (prefix_bits_capped self addr p x b).
Qed.

Lemma CommonBitsAddrF_divergence_bit_witness :
  exists b s1 addr s',
    ret 0 tt = Some (b, s1) /\
    CommonBitsAddrF (addr_of_head 255) (addr_of_head 251) (ret 0) 200 tt
      = Some (addr, s') /\
    (forall i, 0 <= i < Z.min 200 5 ->
       bit_at addr i = bit_at (addr_of_head 255) i) /\
    bit_at addr (Z.min 200 5) =
      if 5 <? 200 then negb (bit_at (addr_of_head 255) 5)
      else Z.testbit b (7 - 200 mod 8).
Proof.
  apply (CommonBitsAddrF_divergence_bit (ret 0));
    [intros s; now exists 0, s | reflexivity | reflexivity
    | vm_compute; reflexivity | simpl; lia].
Defined.

(** C5 (as stated) fails both ways: with the cap binding ([p = 0] below the
    order 255) bit 0 is not flipped, and with the cap not binding ([p = 200]
    above the order 5) bit 5 is flipped. *)
Lemma CommonBitsAddrF_flip_is_uncapped :
  (proximity zero_address (addr_of_last 1) = Some 255 /\
   CommonBitsAddrF zero_address (addr_of_last 1) (ret 0) 0 tt
     = Some (zero_address, tt) /\
   bit_at zero_address 0 = bit_at zero_address 0) /\
  (proximity (addr_of_head 255) (addr_of_head 251) = Some 5 /\
   CommonBitsAddrF (addr_of_head 255) (addr_of_head 251) (ret 0) 200 tt
     = Some (addr_of_head 248, tt) /\
   bit_at (addr_of_head 248) 5 = negb (bit_at (addr_of_head 255) 5)).
Proof. repeat split; vm_compute; reflexivity. Qed.

(** ** [UnmarshalJSON] *)

Lemma slice_inner (value : list Z) :
  (2 <= length value)%nat ->
  exists s, slice value 1 (Z.of_nat (length value) - 1) = Some s /\
            length s = (length value - 2)%nat.
Proof.
  intros H. unfold slice.
  replace ((0 <=? 1) && (1 <=? Z.of_nat (length value) - 1) &&
           (Z.of_nat (length value) - 1 <=? Z.of_nat (length value))) with true by lia.
  eexists. split; [reflexivity|].
  rewrite length_take, length_drop. lia.
Qed.

(** A rendered address is 64 digits between two quotes. *)
Lemma MarshalJSON_length (a : Address) :
  len a = 32 -> length (fst (MarshalJSON a)) = 66%nat.
Proof.
  intros Ha. unfold MarshalJSON, String. simpl. rewrite length_app. simpl.
  assert (H : forall l : list Z,
             length (flat_map (fun b => [hex_digit (b / 16); hex_digit (b mod 16)]) l)
             = (2 * length l)%nat).
  { induction l as [|b l IH]; simpl; [reflexivity | rewrite IH; lia]. }
  rewrite H. unfold len in Ha. lia.
Qed.

(** The only result that [UnmarshalJSON] returns is [nil]. *)
Lemma UnmarshalJSON_nil (HexToHash : list Z -> Address) (value : list Z)
    (a r : Address) (e : error) :
  UnmarshalJSON HexToHash value a = Some (e, r) -> e = nil_error.
Proof.
  unfold UnmarshalJSON, bind, lift.
  destruct (slice value 1 _); [|discriminate]. now intros [= <- _].
Qed.

(** C6 (amended).  [UnmarshalJSON] reports no decoding error: on every input
    of at least two bytes, well formed or not, it drops the first and the
    last byte, stores what [common.HexToHash] makes of the rest and returns
    [nil]. *)
Theorem UnmarshalJSON_never_fails (HexToHash : list Z -> Address)
    (value : list Z) (a : Address) :
  (2 <= length value)%nat ->
  exists s, slice value 1 (Z.of_nat (length value) - 1) = Some s /\
            UnmarshalJSON HexToHash value a = Some (nil_error, HexToHash s).
Proof.
  intros H. destruct (slice_inner value H) as (s & Hs & _).
  exists s. split; [exact Hs|].
  unfold UnmarshalJSON, bind, lift. now rewrite Hs.
Qed.

Lemma UnmarshalJSON_never_fails_witness :
  exists s, slice [34; 122; 122; 34] 1 (Z.of_nat (length [34; 122; 122; 34]) - 1) = Some s /\
            UnmarshalJSON (fun _ => zero_address) [34; 122; 122; 34] zero_address
              = Some (nil_error, (fun _ : list Z => zero_address) s).
Proof. apply UnmarshalJSON_never_fails. simpl. lia. Defined.

(** C6 (as stated) fails: the two characters [zz] between quotes are neither
    64 long nor hexadecimal (a rendered address has 66 bytes, see
    [MarshalJSON_length]), and yet the parse returns [nil] whatever
    [common.HexToHash] is. *)
Lemma UnmarshalJSON_accepts_malformed :
  length [34; 122; 122; 34] <> length (fst (MarshalJSON zero_address)) /\
  ~ (exists HexToHash a r text,
       UnmarshalJSON HexToHash [34; 122; 122; 34] a = Some (failure text, r)).
Proof.
  split; [discriminate|].
  intros (HexToHash & a & r & text & H).
  apply UnmarshalJSON_nil in H. discriminate.
Qed.

(** * Further properties *)

(** ** The proximity order as a common prefix *)

Lemma scan_Next_bits (i oxo j : Z) :
  scan i oxo = Some Next -> 0 <= j < 8 -> Z.testbit oxo (7 - j) = false.
Proof.
  intros H Hj.
  pose proof (for_return_Next_inv _ _ _ H j ltac:(simpl; lia)) as Hat.
  simpl in Hat. rewrite shift_test in Hat by lia.
  now destruct (Z.testbit oxo (7 - j)).
Qed.

Lemma lxor_bit_false (x y k : Z) :
  Z.testbit (Z.lxor x y) k = false -> Z.testbit x k = Z.testbit y k.
Proof.
  rewrite Z.lxor_spec. now destruct (Z.testbit x k), (Z.testbit y k).
Qed.

(** The bytes on which the outer loop of [proximity] went on have the same
    eight bits. *)
Lemma proximity_body_Next_bits (one other : Address) (i : Z) :
  match index one (i / 8), index other (i / 8) with
  | Some a, Some b => scan (i / 8) (Z.lxor a b)
  | _, _ => None
  end = Some Next ->
  bit_at one i = bit_at other i.
Proof.
  intros H. unfold bit_at.
  destruct (index one (i / 8)) as [x|]; [|discriminate].
  destruct (index other (i / 8)) as [y|]; [|discriminate].
  apply lxor_bit_false, (scan_Next_bits (i / 8)); [exact H | lia].
Qed.

(** Whatever [proximity] returns, the two arrays agree on that many leading
    bits. *)
Lemma proximity_prefix (one other : Address) (q i : Z) :
  proximity one other = Some q -> 0 <= i < q -> bit_at one i = bit_at other i.
Proof.
  unfold proximity. intros H Hi.
  destruct (for_return _ _ _) as [[|r]|] eqn:E; try discriminate.
  - injection H as <-. apply proximity_body_Next_bits.
    apply (for_return_Next_inv _ _ _ E (i / 8)). lia.
  - injection H as ->.
    apply for_return_Return_inv in E as (k & Hk & Hat & Hbefore).
    destruct (Z.lt_ge_cases (i / 8) k) as [Hlt | Hge].
    + apply proximity_body_Next_bits, Hbefore. lia.
    + destruct (index one k) as [a|] eqn:Ea; [|discriminate].
      destruct (index other k) as [b|] eqn:Eb; [|discriminate].
      apply scan_Return_inv in Hat as (t & Ht & -> & _ & Hlow).
      assert (i / 8 = k) as Ek by lia.
      rewrite (bit_at_index one i a), (bit_at_index other i b) by now rewrite Ek.
      apply lxor_bit_false, Hlow. lia.
Qed.

(** Arrays that agree on [m] leading bits have an order of at least [m]. *)
Lemma proximity_ge (one other : Address) (m : Z) :
  len other = len one -> m <= len one * 8 ->
  (forall i, 0 <= i < m -> bit_at one i = bit_at other i) ->
  exists k, proximity one other = Some k /\ m <= k.
Proof.
  intros Hlen Hm Hbits.
  destruct (proximity_total one other Hlen) as (k & Hk & Hr).
  exists k. split; [exact Hk|].
  destruct (Z.lt_ge_cases k m) as [Hlt | Hge]; [exfalso | exact Hge].
  pose proof (proximity_bit_differs one other k Hk ltac:(lia)) as Hd.
  rewrite <- Hbits in Hd by lia. now destruct (bit_at one k).
Qed.

(** The order is [q] when the first difference is at bit [q]. *)
Lemma proximity_of_bits (one other : Address) (q : Z) :
  len other = len one -> 0 <= q < len one * 8 ->
  (forall i, 0 <= i < q -> bit_at one i = bit_at other i) ->
  bit_at other q = negb (bit_at one q) ->
  proximity one other = Some q.
Proof.
  intros Hlen Hq Hbits Hd.
  destruct (proximity_ge one other q Hlen ltac:(lia) Hbits) as (k & Hk & Hge).
  destruct (Z.eq_dec k q) as [-> | Hne]; [exact Hk | exfalso].
  pose proof (proximity_prefix one other k q Hk ltac:(lia)) as He.
  rewrite He in Hd. now destruct (bit_at other q).
Qed.

(** X1.  An address is at the full width, 256, from itself. *)
Theorem proximity_self_full_width (a : Address) :
  is_addr a = true -> proximity a a = Some 256.
Proof. intros Ha. apply is_addr_len in Ha. rewrite proximity_same. f_equal. lia. Qed.

Lemma proximity_self_full_width_witness :
  proximity (addr_of_head 9) (addr_of_head 9) = Some 256.
Proof. apply proximity_self_full_width. reflexivity. Defined.

(** X2.  On 32-byte addresses [proximity] does not panic and its result lies in
    [0, 256]. *)
Theorem proximity_bounds (a b : Address) :
  is_addr a = true -> is_addr b = true ->
  exists k, proximity a b = Some k /\ 0 <= k <= 256.
Proof.
  intros Ha Hb. apply is_addr_len in Ha, Hb.
  destruct (proximity_total a b) as (k & Hk & Hr); [congruence|].
  exists k. split; [exact Hk | lia].
Qed.

Lemma proximity_bounds_witness :
  exists k, proximity (addr_of_head 9) (addr_of_last 3) = Some k /\ 0 <= k <= 256.
Proof. apply proximity_bounds; reflexivity. Defined.

(** X3.  The order counts the common leading bits: if [proximity a b] is [q],
    then [a] and [b] agree on the bits [0 .. q-1], and, when [q] is below the
    full width, they differ at bit [q]. *)
Theorem proximity_common_prefix (a b : Address) (q : Z) :
  is_addr a = true -> proximity a b = Some q ->
  (forall i, 0 <= i < q -> bit_at a i = bit_at b i) /\
  (q < 256 -> bit_at b q = negb (bit_at a q)).
Proof.
  intros Ha Hq. apply is_addr_len in Ha. split.
  - intros i Hi. exact (proximity_prefix a b q i Hq Hi).
  - intros Hlt. apply (proximity_bit_differs a b q Hq). lia.
Qed.

Lemma proximity_common_prefix_witness :
  (forall i, 0 <= i < 5 -> bit_at (addr_of_head 255) i = bit_at (addr_of_head 251) i) /\
  (5 < 256 -> bit_at (addr_of_head 251) 5 = negb (bit_at (addr_of_head 255) 5)).
Proof.
  apply proximity_common_prefix; [reflexivity | vm_compute; reflexivity].
Defined.

(** X4.  Conversely, 32-byte addresses that agree on their [m] leading bits
    ([m <= 256]) have a proximity order of at least [m]. *)
Theorem proximity_at_least_common_prefix (a b : Address) (m : Z) :
  is_addr a = true -> is_addr b = true -> m <= 256 ->
  (forall i, 0 <= i < m -> bit_at a i = bit_at b i) ->
  exists k, proximity a b = Some k /\ m <= k.
Proof.
  intros Ha Hb Hm Hbits. apply is_addr_len in Ha, Hb.
  apply proximity_ge; [congruence | lia | exact Hbits].
Qed.

Lemma proximity_at_least_common_prefix_witness :
  exists k, proximity (addr_of_head 255) (addr_of_head 251) = Some k /\ 5 <= k.
Proof.
  apply proximity_at_least_common_prefix; [reflexivity | reflexivity | lia |].
  intros i Hi.
  assert (i = 0 \/ i = 1 \/ i = 2 \/ i = 3 \/ i = 4) as H by lia.
  destruct H as [-> | [-> | [-> | [-> | ->]]]]; reflexivity.
Defined.

(** X5.  The order is an ultrametric: for 32-byte addresses,
    [proximity a c >= min (proximity a b) (proximity b c)]. *)
Theorem proximity_ultrametric (a b c : Address) :
  is_addr a = true -> is_addr b = true -> is_addr c = true ->
  exists qab qbc qac,
    proximity a b = Some qab /\ proximity b c = Some qbc /\
    proximity a c = Some qac /\ Z.min qab qbc <= qac.
Proof.
  intros Ha Hb Hc. apply is_addr_len in Ha, Hb, Hc.
  destruct (proximity_total a b) as (qab & Hab & Rab); [congruence|].
  destruct (proximity_total b c) as (qbc & Hbc & Rbc); [congruence|].
  destruct (proximity_ge a c (Z.min qab qbc)) as (qac & Hac & Hge);
    [congruence | lia | |].
  - intros i Hi.
    rewrite (proximity_prefix a b qab i Hab) by lia.
    apply (proximity_prefix b c qbc i Hbc). lia.
  - now exists qab, qbc, qac.
Qed.

Lemma proximity_ultrametric_witness :
  exists qab qbc qac,
    proximity (addr_of_head 255) (addr_of_head 251) = Some qab /\
    proximity (addr_of_head 251) (addr_of_last 1) = Some qbc /\
    proximity (addr_of_head 255) (addr_of_last 1) = Some qac /\
    Z.min qab qbc <= qac.
Proof. apply proximity_ultrametric; reflexivity. Defined.

(** ** [ProxCmp] as an order *)

Lemma for_return_map {R : Type} (g : R -> R) (body body' : Z -> option (ctl R))
    (n : nat) (lo : Z) :
  (forall i, body' i =
             match body i with
             | Some (Return r) => Some (Return (g r))
             | other => other
             end) ->
  for_return n lo body' =
  match for_return n lo body with
  | Some (Return r) => Some (Return (g r))
  | other => other
  end.
Proof.
  intros H. revert lo. induction n as [|n IH]; intros lo; [reflexivity|].
  simpl. rewrite H. destruct (body lo) as [[|r]|]; [apply IH | reflexivity | reflexivity].
Qed.

Lemma ProxCmp_opp (target a b : Address) :
  ProxCmp target b a = option_map Z.opp (ProxCmp target a b).
Proof.
  unfold ProxCmp.
  rewrite (for_return_map Z.opp (cmp_body target a b) (cmp_body target b a)).
  - now destruct (for_return _ _ (cmp_body target a b)) as [[|r]|].
  - intros i.
    destruct (index a i) as [ai|], (index target i) as [ti|], (index b i) as [bi|];
      try reflexivity.
    destruct (Z.gtb_spec (Z.lxor ai ti) (Z.lxor bi ti));
      destruct (Z.gtb_spec (Z.lxor bi ti) (Z.lxor ai ti));
      destruct (Z.ltb_spec (Z.lxor ai ti) (Z.lxor bi ti));
      destruct (Z.ltb_spec (Z.lxor bi ti) (Z.lxor ai ti)); try lia; reflexivity.
Qed.

(** X6.  Swapping the two candidates negates the result of [ProxCmp] (and
    swaps nothing else: a panic stays a panic). *)
Theorem ProxCmp_swap (target a b : Address) :
  ProxCmp target b a = option_map Z.opp (ProxCmp target a b).
Proof. exact (ProxCmp_opp target a b). Qed.

Lemma cmp_body_closer_inv (target a b : Address) (i : Z) :
  cmp_body target a b i = Some (Return (-1)) ->
  exists ai ti bi,
    index a i = Some ai /\ index target i = Some ti /\ index b i = Some bi /\
    Z.lxor ai ti < Z.lxor bi ti.
Proof.
  cbv beta.
  destruct (index a i) as [ai|], (index target i) as [ti|], (index b i) as [bi|];
    try discriminate.
  destruct (Z.gtb_spec (Z.lxor ai ti) (Z.lxor bi ti)); [discriminate|].
  destruct (Z.ltb_spec (Z.lxor ai ti) (Z.lxor bi ti)); [|discriminate].
  intros _. now exists ai, ti, bi.
Qed.

Lemma cmp_body_closer (target a b : Address) (i ai ti bi : Z) :
  index a i = Some ai -> index target i = Some ti -> index b i = Some bi ->
  Z.lxor ai ti < Z.lxor bi ti ->
  cmp_body target a b i = Some (Return (-1)).
Proof.
  intros Ha Ht Hb H. cbv beta. rewrite Ha, Ht, Hb.
  destruct (Z.gtb_spec (Z.lxor ai ti) (Z.lxor bi ti)); [lia|].
  destruct (Z.ltb_spec (Z.lxor ai ti) (Z.lxor bi ti)); [reflexivity | lia].
Qed.

Lemma cmp_body_same (target a b : Address) (i x ti : Z) :
  index a i = Some x -> index b i = Some x -> index target i = Some ti ->
  cmp_body target a b i = Some Next.
Proof.
  intros Ha Hb Ht. cbv beta. rewrite Ha, Hb, Ht.
  now rewrite Z.gtb_ltb, Z.ltb_irrefl.
Qed.

(** [ProxCmp] says that [a] is closer exactly when the XOR distances first
    differ at a byte where that of [a] is the smaller. *)
Lemma ProxCmp_closer_inv (target a b : Address) :
  ProxCmp target a b = Some (-1) ->
  exists k, 0 <= k < len target /\
            cmp_body target a b k = Some (Return (-1)) /\
            forall i, 0 <= i < k -> cmp_body target a b i = Some Next.
Proof.
  unfold ProxCmp. intros H.
  destruct (for_return _ _ _) as [[|r]|] eqn:E; try discriminate.
  injection H as ->.
  apply for_return_Return_inv in E as (k & Hk & Hat & Hbefore).
  exists k. split; [lia|]. now split.
Qed.

Lemma ProxCmp_closer (target a b : Address) (k : Z) :
  0 <= k < len target ->
  cmp_body target a b k = Some (Return (-1)) ->
  (forall i, 0 <= i < k -> cmp_body target a b i = Some Next) ->
  ProxCmp target a b = Some (-1).
Proof.
  intros Hk Hat Hbefore. unfold ProxCmp.
  rewrite for_return_first with (k := k) (r := -1); [reflexivity | lia | | exact Hat].
  intros i Hi. apply Hbefore. lia.
Qed.

(** X7.  "Closer to the target" is transitive: if [a] is closer than [b] and
    [b] closer than [c], then [a] is closer than [c]. *)
Theorem ProxCmp_transitive (target a b c : Address) :
  ProxCmp target a b = Some (-1) -> ProxCmp target b c = Some (-1) ->
  ProxCmp target a c = Some (-1).
Proof.
  intros Hab Hbc.
  apply ProxCmp_closer_inv in Hab as (k1 & Hk1 & Hat1 & Hbefore1).
  apply ProxCmp_closer_inv in Hbc as (k2 & Hk2 & Hat2 & Hbefore2).
  apply cmp_body_closer_inv in Hat1 as (a1 & t1 & b1 & Ea1 & Et1 & Eb1 & Hlt1).
  apply cmp_body_closer_inv in Hat2 as (b2 & t2 & c2 & Eb2 & Et2 & Ec2 & Hlt2).
  assert (Hsame : forall i, 0 <= i < Z.min k1 k2 ->
            cmp_body target a c i = Some Next).
  { intros i Hi.
    assert (Hx : exists x ti, index a i = Some x /\ index c i = Some x /\
                              index target i = Some ti).
    { destruct (cmp_body_Next_inv target a b i (Hbefore1 i ltac:(lia))) as [Eab Ha].
      destruct (cmp_body_Next_inv target b c i (Hbefore2 i ltac:(lia))) as [Ebc _].
      pose proof (Hbefore1 i ltac:(lia)) as Hn. cbv beta in Hn.
      destruct (index a i) as [x|] eqn:Ex; [|congruence].
      destruct (index target i) as [ti|] eqn:Eti; [|discriminate].
      exists x, ti. repeat split; congruence. }
    destruct Hx as (x & ti & Ex & Ec & Eti).
    exact (cmp_body_same target a c i x ti Ex Ec Eti). }
  destruct (Z.lt_trichotomy k1 k2) as [Hlt | [-> | Hgt]].
  - apply (ProxCmp_closer target a c k1); [lia | | intros i Hi; apply Hsame; lia].
    destruct (cmp_body_Next_inv target b c k1 (Hbefore2 k1 ltac:(lia))) as [Ebc _].
    apply (cmp_body_closer target a c k1 a1 t1 b1); congruence.
  - apply (ProxCmp_closer target a c k2); [lia | | intros i Hi; apply Hsame; lia].
    assert (b2 = b1) as -> by congruence. assert (t2 = t1) as -> by congruence.
    apply (cmp_body_closer target a c k2 a1 t1 c2); try assumption. lia.
  - apply (ProxCmp_closer target a c k2); [lia | | intros i Hi; apply Hsame; lia].
    destruct (cmp_body_Next_inv target a b k2 (Hbefore1 k2 ltac:(lia))) as [Eab _].
    apply (cmp_body_closer target a c k2 b2 t2 c2); congruence.
Qed.

Lemma ProxCmp_transitive_witness :
  ProxCmp zero_address (addr_of_last 1) (addr_of_head 1) = Some (-1).
Proof.
  apply (ProxCmp_transitive zero_address (addr_of_last 1) (addr_of_last 2) (addr_of_head 1));
    vm_compute; reflexivity.
Defined.

(** ** Bits and magnitude of a byte *)

Lemma testbit_true_ge (x n : Z) :
  0 <= n -> 0 <= x -> Z.testbit x n = true -> 2 ^ n <= x.
Proof.
  intros Hn Hx Hbit. destruct (Z.lt_ge_cases x (2 ^ n)) as [Hlt | Hge]; [|exact Hge].
  apply Z.testbit_true in Hbit; [|exact Hn].
  rewrite Z.div_small in Hbit by lia. discriminate.
Qed.

Lemma bits_above_false_lt (x n : Z) :
  0 <= n -> 0 <= x -> (forall k, n <= k -> Z.testbit x k = false) -> x < 2 ^ n.
Proof.
  intros Hn Hx Hbits. destruct (Z.lt_ge_cases x (2 ^ n)) as [Hlt | Hge]; [exact Hlt|].
  assert (Hpos : 0 < x) by (pose proof (Z.pow_pos_nonneg 2 n); lia).
  pose proof (Z.bit_log2 x Hpos) as Hlog.
  rewrite Hbits in Hlog; [discriminate|].
  apply Z.log2_le_pow2; assumption.
Qed.

Lemma lxor_byte (a b : Z) : 0 <= a < 256 -> 0 <= b < 256 -> 0 <= Z.lxor a b < 256.
Proof.
  intros Ha Hb. assert (H0 : 0 <= Z.lxor a b) by (apply Z.lxor_nonneg; lia).
  split; [exact H0|]. change 256 with (2 ^ 8).
  apply bits_above_false_lt; [lia | exact H0 |].
  intros k Hk. now rewrite Z.lxor_spec, !byte_high_bits.
Qed.

Lemma byte_eq_of_bits (x y : Z) :
  0 <= x < 256 -> 0 <= y < 256 ->
  (forall j, 0 <= j < 8 -> Z.testbit x (7 - j) = Z.testbit y (7 - j)) -> x = y.
Proof.
  intros Hx Hy H. apply Z.bits_inj'. intros k Hk.
  destruct (Z.lt_ge_cases k 8) as [Hlt | Hge].
  - replace k with (7 - (7 - k)) by lia. apply H. lia.
  - now rewrite !byte_high_bits.
Qed.

(** A byte whose bits [0 .. trans] from the top are clear is below a byte
    whose bit [trans] is set. *)
Lemma clear_top_lt (da db trans : Z) :
  0 <= da < 256 -> 0 <= db -> 0 <= trans < 8 ->
  (forall j, 0 <= j <= trans -> Z.testbit da (7 - j) = false) ->
  Z.testbit db (7 - trans) = true ->
  da < db.
Proof.
  intros Hda Hdb Ht Hclear Hset.
  pose proof (testbit_true_ge db (7 - trans) ltac:(lia) Hdb Hset) as Hge.
  assert (Hlt : da < 2 ^ (7 - trans)); [|lia].
  apply bits_above_false_lt; [lia | lia |].
  intros k Hk. destruct (Z.lt_ge_cases k 8) as [Hk8 | Hk8].
  - replace k with (7 - (7 - k)) by lia. apply Hclear. lia.
  - now apply byte_high_bits.
Qed.

Lemma bit_at_byte (a : Address) (i j x : Z) :
  0 <= j < 8 -> index a i = Some x -> bit_at a (i * 8 + j) = Z.testbit x (7 - j).
Proof.
  intros Hj Hx.
  assert (Hd : (i * 8 + j) / 8 = i) by lia.
  assert (Hm : (i * 8 + j) mod 8 = j) by lia.
  rewrite (bit_at_index a (i * 8 + j) x) by now rewrite Hd. now rewrite Hm.
Qed.

(** Two addresses with the same eight bits at byte [i] have the same byte. *)
Lemma byte_of_common_bits (one other : Address) (i : Z) :
  is_addr one = true -> is_addr other = true -> 0 <= i < 32 ->
  (forall j, 0 <= j < 8 -> bit_at one (i * 8 + j) = bit_at other (i * 8 + j)) ->
  exists x, index one i = Some x /\ index other i = Some x.
Proof.
  intros Hone Hother Hi Hbits.
  pose proof (is_addr_len _ Hone) as L1. pose proof (is_addr_len _ Hother) as L2.
  destruct (index_in_range one i) as (x & Hx & _); [lia|].
  destruct (index_in_range other i) as (y & Hy & _); [lia|].
  exists x. split; [exact Hx|]. rewrite Hy. f_equal. symmetry.
  apply byte_eq_of_bits.
  - exact (index_is_byte _ _ _ Hone Hx).
  - exact (index_is_byte _ _ _ Hother Hy).
  - intros j Hj. specialize (Hbits j Hj).
    now rewrite (bit_at_byte one i j x), (bit_at_byte other i j y) in Hbits.
Qed.

(** ** [ProxCmp] and [proximity] *)

(** X8.  The finer comparison refines the order: for 32-byte addresses, if
    the proximity order of [a] to the target is higher than that of [b], then
    [ProxCmp] says that [a] is closer. *)
Theorem ProxCmp_of_proximity (target a b : Address) (qa qb : Z) :
  is_addr target = true -> is_addr a = true -> is_addr b = true ->
  proximity target a = Some qa -> proximity target b = Some qb ->
  qb < qa ->
  ProxCmp target a b = Some (-1).
Proof.
  intros Ht Ha Hb Hqa Hqb Hlt.
  pose proof (is_addr_len _ Ht) as Lt. pose proof (is_addr_len _ Ha) as La.
  pose proof (is_addr_len _ Hb) as Lb.
  destruct (proximity_total target a) as (qa' & Hqa' & Rqa); [congruence|].
  assert (qa' = qa) as -> by congruence.
  destruct (proximity_lt_inv target b qb Hqb ltac:(lia))
    as (tp & bp & Rqb & Etp & Ebp & Hset & _ & _).
  set (pos := qb / 8) in *. set (trans := qb mod 8) in *.
  assert (Hpos : 0 <= pos < 32) by (unfold pos; lia).
  assert (Htrans : 0 <= trans < 8) by (unfold trans; lia).
  assert (Hqb_eq : qb = pos * 8 + trans) by (unfold pos, trans; lia).
  destruct (index_in_range a pos) as (ap & Eap & _); [lia|].
  apply (ProxCmp_closer target a b pos); [lia | |].
  - apply (cmp_body_closer target a b pos ap tp bp); try assumption.
    apply (clear_top_lt _ _ trans).
    + apply lxor_byte; [exact (index_is_byte _ _ _ Ha Eap) | exact (index_is_byte _ _ _ Ht Etp)].
    + apply Z.lxor_nonneg.
      pose proof (index_is_byte _ _ _ Hb Ebp). pose proof (index_is_byte _ _ _ Ht Etp). lia.
    + exact Htrans.
    + intros j Hj.
      pose proof (proximity_prefix target a qa (pos * 8 + j) Hqa ltac:(lia)) as Hbit.
      rewrite (bit_at_byte target pos j tp), (bit_at_byte a pos j ap) in Hbit
        by (assumption || lia).
      rewrite Z.lxor_spec, Hbit. apply xorb_nilpotent.
    + now rewrite Z.lxor_comm.
  - intros i Hi.
    destruct (byte_of_common_bits target a i Ht Ha ltac:(lia)) as (x & Ex & Ea).
    { intros j Hj. apply (proximity_prefix target a qa); [exact Hqa | lia]. }
    destruct (byte_of_common_bits target b i Ht Hb ltac:(lia)) as (y & Ey & Eb).
    { intros j Hj. apply (proximity_prefix target b qb); [exact Hqb | lia]. }
    assert (y = x) as -> by congruence.
    exact (cmp_body_same target a b i x x Ea Eb Ex).
Qed.

Lemma ProxCmp_of_proximity_witness :
  ProxCmp (addr_of_head 255) (addr_of_head 251) (addr_of_head 127) = Some (-1).
Proof.
  apply (ProxCmp_of_proximity _ _ _ 5 0);
    [reflexivity | reflexivity | reflexivity
    | vm_compute; reflexivity | vm_compute; reflexivity | lia].
Defined.

(** ** The generated addresses are addresses *)

Lemma byte_intro (x : Z) :
  0 <= x -> (forall k, 8 <= k -> Z.testbit x k = false) -> 0 <= x < 256.
Proof.
  intros Hx Hbits. split; [exact Hx|]. change 256 with (2 ^ 8).
  apply bits_above_false_lt; [lia | exact Hx | exact Hbits].
Qed.

Lemma byte_of_range (x : Z) : 0 <= byte_of x < 256.
Proof. unfold byte_of. apply Z.mod_pos_bound. lia. Qed.

Lemma is_addr_intro (a : Address) :
  len a = 32 -> (forall i x, index a i = Some x -> 0 <= x < 256) -> is_addr a = true.
Proof.
  intros Hlen Hbytes. unfold is_addr, HashLength.
  apply andb_true_iff. split; [lia|].
  apply forallb_forall. intros x Hin.
  apply list_elem_of_In, list_elem_of_lookup_1 in Hin as [n Hn].
  apply index_of_lookup, Hbytes in Hn. unfold is_byte. lia.
Qed.

(** The byte that [RandomAddressAt] writes at [pos] is a byte. *)
Lemma flipped_byte_range (old transbytea flipraw randbyte transbyteb : Z) :
  0 <= old < 256 -> 0 <= randbyte < 256 ->
  0 <= Z.lor (Z.lxor (Z.land old transbytea) (byte_of flipraw))
             (Z.land randbyte transbyteb) < 256.
Proof.
  intros Hold Hrand. pose proof (byte_of_range flipraw) as Hflip.
  apply byte_intro.
  - apply Z.lor_nonneg. split.
    + apply Z.lxor_nonneg. split; intros _; [lia | apply Z.land_nonneg; lia].
    + apply Z.land_nonneg. lia.
  - intros k Hk.
    rewrite Z.lor_spec, Z.lxor_spec, !Z.land_spec.
    now rewrite (byte_high_bits old), (byte_high_bits randbyte), (byte_high_bits (byte_of flipraw)).
Qed.

(** [RandomAddressAt] with [0 <= prox < 256], byte by byte. *)
Lemma RandomAddressAt_nonneg_run (r : Address) (prox : Z) (rnd : Rand) :
  is_addr r = true -> 0 <= prox < 256 ->
  exists new addr rnd',
    RandomAddressAt r prox rnd = Some (addr, rnd') /\
    len addr = 32 /\
    (forall i, i < prox / 8 -> index addr i = index r i) /\
    index addr (prox / 8) = Some new /\ 0 <= new < 256 /\
    (forall i, prox / 8 < i < 32 -> exists b, index addr i = Some b /\ 0 <= b < 255).
Proof.
  intros Hr Hprox. pose proof (is_addr_len _ Hr) as Lr.
  unfold RandomAddressAt.
  replace (prox >=? 0) with true by lia.
  replace (Z.quot prox 8) with (prox / 8) by lia.
  set (pos := prox / 8).
  assert (Hpos : 0 <= pos < 32) by (unfold pos; lia).
  unfold bind at 1. unfold bind at 1.
  destruct (rand_byte_total rnd) as (randbyte & rnd1 & -> & Hrand).
  unfold bind at 1. unfold lift at 1.
  destruct (index_in_range r pos) as (old & Hold & _); [lia|]. rewrite Hold.
  unfold bind at 1. unfold lift at 1. rewrite store_in_range by lia.
  unfold ret.
  match goal with |- context [<[Z.to_nat pos := ?v]> r] => set (new := v) end.
  destruct (fill_after_spec rand_byte (fun b => 0 <= b < 255) rand_byte_total
              pos (<[Z.to_nat pos := new]> r) rnd1)
    as (addr & rnd' & Hrun & Hlen & Hlow & Hnew); [rewrite len_insert; lia|].
  rewrite len_insert in Hlen, Hnew.
  exists new, addr, rnd'. split; [exact Hrun|]. split; [lia|]. split; [|split; [|split]].
  - intros i Hi. rewrite Hlow by lia. apply index_insert_ne; lia.
  - rewrite Hlow by lia. apply index_insert_eq. lia.
  - apply flipped_byte_range; [exact (index_is_byte _ _ _ Hr Hold) | lia].
  - intros i Hi. apply Hnew. lia.
Qed.

(** ** [CommonBitsAddr] and the bin of [other] *)

(** X11.  [CommonBitsAddr self other p] on 32-byte addresses, with
    [q = proximity self other] and [0 <= min p q < 256], for every state of the
    random source: when [p] is above [q] the result is at order exactly [q]
    from [self] and at an order above [q] from [other] (it falls in the bin of
    [other]); when [p <= q] the result is at order at least [p] from [self]. *)
Theorem CommonBitsAddr_proximity (self other : Address) (p q : Z) (rnd : Rand) :
  is_addr self = true -> is_addr other = true ->
  proximity self other = Some q -> 0 <= Z.min p q < 256 ->
  exists addr rnd' k,
    CommonBitsAddr self other p rnd = Some (addr, rnd') /\
    proximity self addr = Some k /\
    (if q <? p
     then k = q /\ exists k', proximity other addr = Some k' /\ q < k'
     else p <= k).
Proof.
  intros Hself Hother Hq Hk.
  pose proof (is_addr_len _ Hself) as Lself. pose proof (is_addr_len _ Hother) as Lother.
  pose proof (CommonBitsAddrF_run rand_byte (fun b => 0 <= b < 255) rand_byte_total
                self other p q rnd Hq) as H.
  cbv zeta in H. rewrite cap_leb in H.
  set (m := Z.min p q) in *.
  replace (Z.quot m 8) with (m / 8) in H by lia.
  destruct H as (x & b & s1 & addr & rnd' & Hx & _ & _ & Hrun & Hlen & Hlow & Hat & _);
    [lia|].
  unfold CommonBitsAddr.
  destruct (Z.ltb_spec q p) as [Hlt | Hge].
  - assert (m = q) as Em by lia. rewrite Em in *.
    destruct (prefix_bits_flip self addr p q x b ltac:(lia) Hx Hat Hlow) as [Hpre Hflip].
    exists addr, rnd', q. split; [exact Hrun|]. split; [|split; [reflexivity|]].
    + apply proximity_of_bits; [congruence | lia | | exact Hflip].
      intros i Hi. symmetry. now apply Hpre.
    + destruct (proximity_ge other addr (q + 1)) as (k' & Hk' & Hle);
        [congruence | lia | | exists k'; split; [exact Hk' | lia]].
      intros i Hi. destruct (Z.eq_dec i q) as [-> | Hne].
      * rewrite Hflip. apply (proximity_bit_differs self other q Hq). lia.
      * rewrite Hpre by lia. symmetry.
        apply (proximity_prefix self other q i Hq). lia.
  - assert (m = p) as Em by lia. rewrite Em in *.
    destruct (prefix_bits_capped self addr p x b ltac:(lia) Hx Hat Hlow) as [Hpre _].
    destruct (proximity_ge self addr p) as (k & Hk' & Hle); [congruence | lia | |].
    + intros i Hi. symmetry. now apply Hpre.
    + now exists addr, rnd', k.
Qed.

Lemma CommonBitsAddr_proximity_witness :
  exists addr rnd' k,
    CommonBitsAddr (addr_of_head 255) (addr_of_head 251) 200 (rnd_of [9; 8; 7])
      = Some (addr, rnd') /\
    proximity (addr_of_head 255) addr = Some k /\
    (if 5 <? 200
     then k = 5 /\ exists k', proximity (addr_of_head 251) addr = Some k' /\ 5 < k'
     else 200 <= k).
Proof.
  apply CommonBitsAddr_proximity;
    [reflexivity | reflexivity | vm_compute; reflexivity | simpl; lia].
Defined.

(** ** The range of [KeyRange] *)

Lemma bits_subset_le (x y : Z) :
  0 <= x -> 0 <= y ->
  (forall k, 0 <= k -> Z.testbit x k = true -> Z.testbit y k = true) -> x <= y.
Proof.
  intros Hx Hy Hsub.
  assert (E : y = Z.lor x y).
  { apply Z.bits_inj'. intros k Hk. rewrite Z.lor_spec.
    specialize (Hsub k Hk). destruct (Z.testbit x k); [now rewrite Hsub | reflexivity]. }
  rewrite E. now apply lor_ge.
Qed.

Lemma boundary_capped_range (p x b : Z) :
  0 <= x < 256 -> 0 <= b < 256 -> 0 <= boundary p p x b < 256.
Proof.
  intros Hx Hb. rewrite Z.gtb_ltb, Z.ltb_irrefl. apply byte_intro.
  - apply Z.lor_nonneg. split; apply Z.land_nonneg; [left | right]; lia.
  - intros k Hk. rewrite Z.lor_spec, !Z.land_spec.
    rewrite (byte_high_bits x), (byte_high_bits b) by lia.
    now rewrite andb_false_r.
Qed.

(** [KeyRange], byte by byte. *)
Lemma KeyRange_bytes (one other : Address) (proxLimit q : Z) :
  is_addr one = true ->
  proximity one other = Some q ->
  -8 < Z.min q proxLimit < 256 ->
  exists x start stop,
    index one (Z.quot (Z.min q proxLimit) 8) = Some x /\
    KeyRange one other proxLimit = Some (start, stop) /\
    len start = 32 /\ len stop = 32 /\
    (forall i, i < Z.quot (Z.min q proxLimit) 8 ->
       index start i = index one i /\ index stop i = index one i) /\
    index start (Z.quot (Z.min q proxLimit) 8)
      = Some (boundary (Z.min q proxLimit) (Z.min q proxLimit) x 0) /\
    index stop (Z.quot (Z.min q proxLimit) 8)
      = Some (boundary (Z.min q proxLimit) (Z.min q proxLimit) x 255) /\
    (forall i, Z.quot (Z.min q proxLimit) 8 < i < 32 ->
       index start i = Some 0 /\ index stop i = Some 255).
Proof.
  intros Hone Hq Hk. pose proof (is_addr_len _ Hone) as Lone.
  unfold KeyRange. rewrite Hq. cbv zeta. rewrite cap_geb.
  set (k := Z.min q proxLimit) in *.
  destruct (CommonBitsAddrByte_capped one other 0 k q Hq) as
    (x & start & Hx & -> & Lstart & Hlow0 & Hat0 & Hnew0); [lia | lia |].
  destruct (CommonBitsAddrByte_capped one other 255 k q Hq) as
    (x' & stop & Hx' & -> & Lstop & Hlow1 & Hat1 & Hnew1); [lia | lia |].
  assert (x' = x) as -> by congruence.
  exists x, start, stop. split; [exact Hx|]. split; [reflexivity|].
  split; [lia|]. split; [lia|]. split; [|split; [exact Hat0 | split; [exact Hat1|]]].
  - intros i Hi. split; [now apply Hlow0 | now apply Hlow1].
  - intros i Hi. split; [apply Hnew0 | apply Hnew1]; lia.
Qed.

(** X12.  [KeyRange] on 32-byte addresses returns a range exactly when the
    capped order [k = min (proximity one other) proxLimit] satisfies
    [-8 < k < 256]; otherwise it panics on an index outside the array. *)
Theorem KeyRange_domain (one other : Address) (proxLimit : Z) :
  is_addr one = true -> is_addr other = true ->
  exists q,
    proximity one other = Some q /\
    (-8 < Z.min q proxLimit < 256 ->
       exists start stop, KeyRange one other proxLimit = Some (start, stop)) /\
    (Z.min q proxLimit <= -8 \/ 256 <= Z.min q proxLimit ->
       KeyRange one other proxLimit = None).
Proof.
  intros Hone Hother.
  pose proof (is_addr_len _ Hone) as Lone. pose proof (is_addr_len _ Hother) as Lother.
  destruct (proximity_total one other) as (q & Hq & _); [congruence|].
  exists q. split; [exact Hq|]. split.
  - intros Hk.
    destruct (KeyRange_bytes one other proxLimit q Hone Hq Hk)
      as (x & start & stop & _ & H & _).
    now exists start, stop.
  - intros Hk. exact (KeyRange_panics one other proxLimit q Hone Hq Hk).
Qed.

Lemma KeyRange_domain_witness :
  exists q,
    proximity (addr_of_head 200) (addr_of_head 192) = Some q /\
    (-8 < Z.min q (-9) < 256 ->
       exists start stop,
         KeyRange (addr_of_head 200) (addr_of_head 192) (-9) = Some (start, stop)) /\
    (Z.min q (-9) <= -8 \/ 256 <= Z.min q (-9) ->
       KeyRange (addr_of_head 200) (addr_of_head 192) (-9) = None).
Proof. apply KeyRange_domain; reflexivity. Defined.

(** X13.  The two ends of the range: for 32-byte addresses and a capped order
    [k = min (proximity one other) proxLimit] in [0, 256), [start] and [stop]
    are 32-byte addresses, every bit of [start] from position [k] on is 0 and
    every bit of [stop] from position [k] on is 1. *)
Theorem KeyRange_ends (one other : Address) (proxLimit q : Z) (start stop : Address) :
  is_addr one = true ->
  proximity one other = Some q -> 0 <= Z.min q proxLimit < 256 ->
  KeyRange one other proxLimit = Some (start, stop) ->
  is_addr start = true /\ is_addr stop = true /\
  forall i, Z.min q proxLimit <= i < 256 ->
    bit_at start i = false /\ bit_at stop i = true.
Proof.
  intros Hone Hq Hk Hrun.
  destruct (KeyRange_bytes one other proxLimit q Hone Hq ltac:(lia))
    as (x & start' & stop' & Hx & Hrun' & Lstart & Lstop & Hlow & Hat0 & Hat1 & Hnew).
  rewrite Hrun in Hrun'. injection Hrun' as <- <-.
  set (k := Z.min q proxLimit) in *.
  replace (Z.quot k 8) with (k / 8) in * by lia.
  pose proof (index_is_byte _ _ _ Hone Hx) as Hxb.
  split; [|split].
  - apply is_addr_intro; [exact Lstart|]. intros i y Hy.
    pose proof (index_inv _ _ _ Hy) as [Hi _].
    destruct (Z.lt_trichotomy i (k / 8)) as [Hlt | [-> | Hgt]].
    + destruct (Hlow i Hlt) as [E _]. rewrite E in Hy. exact (index_is_byte _ _ _ Hone Hy).
    + rewrite Hat0 in Hy. injection Hy as <-. apply boundary_capped_range; lia.
    + destruct (Hnew i ltac:(lia)) as [E _]. rewrite E in Hy. injection Hy as <-. lia.
  - apply is_addr_intro; [exact Lstop|]. intros i y Hy.
    pose proof (index_inv _ _ _ Hy) as [Hi _].
    destruct (Z.lt_trichotomy i (k / 8)) as [Hlt | [-> | Hgt]].
    + destruct (Hlow i Hlt) as [_ E]. rewrite E in Hy. exact (index_is_byte _ _ _ Hone Hy).
    + rewrite Hat1 in Hy. injection Hy as <-. apply boundary_capped_range; lia.
    + destruct (Hnew i ltac:(lia)) as [_ E]. rewrite E in Hy. injection Hy as <-. lia.
  - intros i Hi. destruct (Z.eq_dec (i / 8) (k / 8)) as [E | E].
    + rewrite (bit_at_index start i (boundary k k x 0)) by now rewrite E.
      rewrite (bit_at_index stop i (boundary k k x 255)) by now rewrite E.
      rewrite !boundary_capped_bits by lia.
      replace (7 - k mod 8 <? 7 - i mod 8) with false by lia.
      split; [apply Z.testbit_0_l | rewrite testbit_255 by lia; lia].
    + destruct (Hnew (i / 8) ltac:(lia)) as [E0 E1].
      rewrite (bit_at_index start i 0 E0), (bit_at_index stop i 255 E1).
      split; [apply Z.testbit_0_l | rewrite testbit_255 by lia; lia].
Qed.

Lemma KeyRange_ends_witness :
  is_addr (addr_of_head 192) = true /\ is_addr (223 :: repeat 255 31) = true /\
  forall i, Z.min 4 3 <= i < 256 ->
    bit_at (addr_of_head 192) i = false /\ bit_at (223 :: repeat 255 31) i = true.
Proof.
  apply (KeyRange_ends (addr_of_head 200) (addr_of_head 192) 3 4);
    [reflexivity | vm_compute; reflexivity | simpl; lia | vm_compute; reflexivity].
Defined.

(** X14.  The range contains the bin: for 32-byte addresses and a capped
    order [k] in [0, 256), every 32-byte address that has the [k] leading
    bits of [one] lies between [start] and [stop] (both included) as a
    big-endian byte sequence. *)
Theorem KeyRange_contains (one other x : Address) (proxLimit q : Z)
    (start stop : Address) :
  is_addr one = true -> is_addr x = true ->
  proximity one other = Some q -> 0 <= Z.min q proxLimit < 256 ->
  KeyRange one other proxLimit = Some (start, stop) ->
  (forall i, 0 <= i < Z.min q proxLimit -> bit_at x i = bit_at one i) ->
  addr_le start x = true /\ addr_le x stop = true.
Proof.
  intros Hone Hx Hq Hk Hrun Hbits.
  pose proof (is_addr_len _ Hone) as Lone. pose proof (is_addr_len _ Hx) as Lx.
  destruct (KeyRange_bytes one other proxLimit q Hone Hq ltac:(lia))
    as (o & start' & stop' & Ho & Hrun' & Lstart & Lstop & Hlow & Hat0 & Hat1 & Hnew).
  rewrite Hrun in Hrun'. injection Hrun' as <- <-.
  set (k := Z.min q proxLimit) in *.
  replace (Z.quot k 8) with (k / 8) in * by lia.
  pose proof (index_is_byte _ _ _ Hone Ho) as Hob.
  destruct (index_in_range x (k / 8)) as (xp & Hxp & _); [lia|].
  pose proof (index_is_byte _ _ _ Hx Hxp) as Hxpb.
  (* the bits of [x] and [one] before [k] in the boundary byte *)
  assert (Htop : forall kk, 7 - k mod 8 < kk < 8 -> Z.testbit xp kk = Z.testbit o kk).
  { intros kk Hkk. specialize (Hbits (k / 8 * 8 + (7 - kk)) ltac:(lia)).
    rewrite (bit_at_byte x (k / 8) (7 - kk) xp), (bit_at_byte one (k / 8) (7 - kk) o)
      in Hbits by (assumption || lia).
    now replace (7 - (7 - kk)) with kk in Hbits by lia. }
  (* the bytes of [x] and [one] before the boundary byte *)
  assert (Hpre : forall i, 0 <= i < k / 8 -> index x i = index one i).
  { intros i Hi.
    destruct (byte_of_common_bits x one i Hx Hone ltac:(lia)) as (y & E1 & E2);
      [|congruence].
    intros j Hj. apply Hbits. lia. }
  split.
  - apply addr_le_index; [congruence|]. intros i a b Ha Hb.
    pose proof (index_inv _ _ _ Ha) as [Hi _].
    destruct (Z.lt_trichotomy i (k / 8)) as [Hlt | [-> | Hgt]].
    + destruct (Hlow i Hlt) as [E _]. rewrite E, <- Hpre in Ha by lia.
      assert (a = b) by congruence. lia.
    + rewrite Hat0 in Ha. injection Ha as <-. assert (b = xp) as -> by congruence.
      pose proof (boundary_capped_range k o 0 Hob ltac:(lia)) as Hr.
      apply bits_subset_le; [lia | lia |].
      intros kk Hkk Hset. destruct (Z.lt_ge_cases kk 8) as [Hk8 | Hk8].
      * rewrite boundary_capped_bits in Hset by lia.
        destruct (Z.ltb_spec (7 - k mod 8) kk).
        -- rewrite Htop by lia. exact Hset.
        -- rewrite Z.testbit_0_l in Hset. discriminate.
      * rewrite byte_high_bits in Hset by lia. discriminate.
    + destruct (Hnew i ltac:(lia)) as [E _]. rewrite E in Ha. injection Ha as <-.
      pose proof (index_is_byte _ _ _ Hx Hb). lia.
  - apply addr_le_index; [congruence|]. intros i a b Ha Hb.
    pose proof (index_inv _ _ _ Ha) as [Hi _].
    destruct (Z.lt_trichotomy i (k / 8)) as [Hlt | [-> | Hgt]].
    + destruct (Hlow i Hlt) as [_ E]. rewrite E, <- Hpre in Hb by lia.
      assert (a = b) by congruence. lia.
    + rewrite Hat1 in Hb. injection Hb as <-. assert (a = xp) as -> by congruence.
      pose proof (boundary_capped_range k o 255 Hob ltac:(lia)) as Hr.
      apply bits_subset_le; [lia | lia |].
      intros kk Hkk Hset. destruct (Z.lt_ge_cases kk 8) as [Hk8 | Hk8].
      * rewrite boundary_capped_bits by lia.
        destruct (Z.ltb_spec (7 - k mod 8) kk).
        -- rewrite <- Htop by lia. exact Hset.
        -- rewrite testbit_255 by lia. lia.
      * rewrite byte_high_bits in Hset by lia. discriminate.
    + destruct (Hnew i ltac:(lia)) as [_ E]. rewrite E in Hb. injection Hb as <-.
      pose proof (index_is_byte _ _ _ Hx Ha). lia.
Qed.

Lemma KeyRange_contains_witness :
  addr_le (addr_of_head 192) (addr_of_head 210) = true /\
  addr_le (addr_of_head 210) (223 :: repeat 255 31) = true.
Proof.
  apply (KeyRange_contains (addr_of_head 200) (addr_of_head 192) (addr_of_head 210) 3 4);
    [reflexivity | reflexivity | vm_compute; reflexivity | simpl; lia
    | vm_compute; reflexivity | ].
  intros i Hi. assert (i = 0 \/ i = 1 \/ i = 2) as H by lia.
  destruct H as [-> | [-> | ->]]; reflexivity.
Defined.

(** *** Nothing else is in the range *)

(** A sequence between two sequences that share their first [n] elements
    shares them too, and its element [n] lies between theirs. *)
Lemma addr_le_between (a : Address) :
  forall (x b : Address) (n : nat),
    addr_le a x = true -> addr_le x b = true ->
    length a = length x -> length x = length b ->
    (forall i, (i < n)%nat -> a !! i = b !! i) ->
    (forall i, (i < n)%nat -> x !! i = a !! i) /\
    (forall an xn bn, a !! n = Some an -> x !! n = Some xn -> b !! n = Some bn ->
                      an <= xn <= bn).
Proof.
  induction a as [|h a IH]; intros x b n Hax Hxb L1 L2 Hsame.
  - destruct x; [|discriminate]. split; [reflexivity | discriminate].
  - destruct x as [|hx x]; [discriminate|]. destruct b as [|hb b]; [discriminate|].
    simpl in Hax, Hxb.
    assert (Hle1 : h <= hx) by lia. assert (Hle2 : hx <= hb) by lia.
    destruct n as [|n].
    + split; [intros i Hi; lia|].
      intros an xn bn [= <-] [= <-] [= <-]. lia.
    + pose proof (Hsame 0%nat ltac:(lia)) as E0. simpl in E0. injection E0 as <-.
      assert (hx = h) as -> by lia.
      rewrite Z.ltb_irrefl, Z.eqb_refl in Hax, Hxb. simpl in Hax, Hxb.
      destruct (IH x b n Hax Hxb) as [Hpre Hat].
      * simpl in L1. lia.
      * simpl in L2. lia.
      * intros i Hi. exact (Hsame (S i) ltac:(lia)).
      * split.
        -- intros [|i] Hi; [reflexivity | apply Hpre; lia].
        -- intros an xn bn. simpl. apply Hat.
Qed.

Lemma lookup_of_index (a : Address) (i x : Z) :
  index a i = Some x -> a !! Z.to_nat i = Some x.
Proof. intros H. now apply index_inv in H. Qed.

(** The boundary byte keeps the top of the old byte, whatever the fill. *)
Lemma boundary_capped_top (p o b : Z) :
  0 <= p -> 0 <= o < 256 -> 0 <= b < 256 ->
  Z.shiftr (boundary p p o b) (8 - p mod 8) = Z.shiftr o (8 - p mod 8).
Proof.
  intros Hp Ho Hb. apply Z.bits_inj'. intros j Hj.
  rewrite !Z.shiftr_spec by lia.
  destruct (Z.lt_ge_cases (j + (8 - p mod 8)) 8) as [Hlt | Hge].
  - rewrite boundary_capped_bits by lia.
    now replace (7 - p mod 8 <? j + (8 - p mod 8)) with true by lia.
  - rewrite (byte_high_bits o) by lia.
    apply byte_high_bits; [|lia]. now apply boundary_capped_range.
Qed.

Lemma shiftr_le (x y m : Z) : 0 <= m -> x <= y -> Z.shiftr x m <= Z.shiftr y m.
Proof.
  intros Hm Hxy. rewrite !Z.shiftr_div_pow2 by lia.
  apply Z.div_le_mono; [|exact Hxy].
  apply Z.pow_pos_nonneg; lia.
Qed.

(** X15.  The range contains nothing but the bin: for 32-byte addresses and a
    capped order [k] in [0, 256), every 32-byte address between [start] and
    [stop] has the [k] leading bits of [one]. *)
Theorem KeyRange_only (one other x : Address) (proxLimit q : Z)
    (start stop : Address) :
  is_addr one = true -> is_addr x = true ->
  proximity one other = Some q -> 0 <= Z.min q proxLimit < 256 ->
  KeyRange one other proxLimit = Some (start, stop) ->
  addr_le start x = true -> addr_le x stop = true ->
  forall i, 0 <= i < Z.min q proxLimit -> bit_at x i = bit_at one i.
Proof.
  intros Hone Hx Hq Hk Hrun Hsx Hxs.
  pose proof (is_addr_len _ Hone) as Lone. pose proof (is_addr_len _ Hx) as Lx.
  destruct (KeyRange_bytes one other proxLimit q Hone Hq ltac:(lia))
    as (o & start' & stop' & Ho & Hrun' & Lstart & Lstop & Hlow & Hat0 & Hat1 & Hnew).
  rewrite Hrun in Hrun'. injection Hrun' as <- <-.
  set (k := Z.min q proxLimit) in *.
  replace (Z.quot k 8) with (k / 8) in * by lia.
  pose proof (index_is_byte _ _ _ Hone Ho) as Hob.
  destruct (index_in_range x (k / 8)) as (xp & Hxp & _); [lia|].
  pose proof (index_is_byte _ _ _ Hx Hxp) as Hxpb.
  destruct (addr_le_between start x stop (Z.to_nat (k / 8)) Hsx Hxs) as [Hpre Hat].
  { unfold len in *. lia. }
  { unfold len in *. lia. }
  { intros n Hn. destruct (Hlow (Z.of_nat n) ltac:(lia)) as [E0 E1].
    unfold index in E0, E1. rewrite Lstart in E0. rewrite Lstop in E1. rewrite Lone in *.
    replace ((0 <=? Z.of_nat n) && (Z.of_nat n <? 32)) with true in * by lia.
    rewrite Nat2Z.id in *. congruence. }
  specialize (Hat _ _ _ (lookup_of_index _ _ _ Hat0) (lookup_of_index _ _ _ Hxp)
                (lookup_of_index _ _ _ Hat1)).
  (* the top of the boundary byte of [x] is that of [one] *)
  assert (Htop : Z.shiftr xp (8 - k mod 8) = Z.shiftr o (8 - k mod 8)).
  { pose proof (shiftr_le _ _ (8 - k mod 8) ltac:(lia) (proj1 Hat)) as H1.
    pose proof (shiftr_le _ _ (8 - k mod 8) ltac:(lia) (proj2 Hat)) as H2.
    rewrite boundary_capped_top in H1, H2 by lia. lia. }
  intros i Hi. destruct (Z.eq_dec (i / 8) (k / 8)) as [E | E].
  - rewrite (bit_at_index x i xp), (bit_at_index one i o) by now rewrite E.
    replace (7 - i mod 8) with ((k mod 8 - 1 - i mod 8) + (8 - k mod 8)) by lia.
    rewrite <- !Z.shiftr_spec by lia. now rewrite Htop.
  - apply bit_at_same_byte.
    destruct (Hlow (i / 8) ltac:(lia)) as [E0 _]. rewrite <- E0.
    destruct (index_in_range x (i / 8)) as (y & Hy & Hy'); [lia|].
    destruct (index_in_range start (i / 8)) as (z & Hz & Hz'); [lia|].
    rewrite Hy, Hz. rewrite <- Hy', <- Hz'. apply Hpre. lia.
Qed.

Lemma KeyRange_only_witness :
  bit_at (addr_of_head 210) 2 = bit_at (addr_of_head 200) 2.
Proof.
  apply (KeyRange_only (addr_of_head 200) (addr_of_head 192) (addr_of_head 210) 3 4
           (addr_of_head 192) (223 :: repeat 255 31));
    [reflexivity | reflexivity | vm_compute; reflexivity | simpl; lia
    | vm_compute; reflexivity | reflexivity | reflexivity | simpl; lia].
Defined.

(** ** The text forms *)

Lemma hex_digit_range (n : Z) :
  0 <= n < 16 -> 48 <= hex_digit n <= 57 \/ 97 <= hex_digit n <= 102.
Proof. intros Hn. unfold hex_digit. destruct (Z.ltb_spec n 10); lia. Qed.

Lemma hex_digit_inj (n m : Z) :
  0 <= n < 16 -> 0 <= m < 16 -> hex_digit n = hex_digit m -> n = m.
Proof.
  intros Hn Hm. unfold hex_digit.
  destruct (Z.ltb_spec n 10), (Z.ltb_spec m 10); lia.
Qed.

Lemma is_addr_bytes (a : Address) : is_addr a = true -> Forall (fun b => 0 <= b < 256) a.
Proof.
  unfold is_addr. intros H. apply andb_true_iff in H as [_ H].
  rewrite forallb_forall in H. apply List.Forall_forall. intros x Hx.
  apply H in Hx. unfold is_byte in Hx. lia.
Qed.

Lemma String_length (a : Address) : length (String a) = (2 * length a)%nat.
Proof.
  unfold String. induction a as [|b a IH]; simpl; [reflexivity | rewrite IH; lia].
Qed.

Lemma String_chars (a : Address) :
  Forall (fun b => 0 <= b < 256) a ->
  Forall (fun c => 48 <= c <= 57 \/ 97 <= c <= 102) (String a).
Proof.
  unfold String. induction 1 as [|b a Hb _ IH]; simpl; [constructor|].
  constructor; [apply hex_digit_range; lia|].
  constructor; [apply hex_digit_range; lia | exact IH].
Qed.

Lemma String_inj (a : Address) :
  forall b : Address,
    Forall (fun x => 0 <= x < 256) a -> Forall (fun x => 0 <= x < 256) b ->
    String a = String b -> a = b.
Proof.
  unfold String. induction a as [|x a IH]; intros [|y b] Ha Hb H; simpl in H;
    try discriminate; [reflexivity|].
  inversion Ha as [|? ? Hx Ha']; subst. inversion Hb as [|? ? Hy Hb']; subst.
  injection H as H1 H2 H3.
  apply hex_digit_inj in H1; [|lia|lia]. apply hex_digit_inj in H2; [|lia|lia].
  f_equal; [lia | now apply IH].
Qed.

(** X16.  [String] renders a 32-byte address as 64 characters, each a digit
    [0-9] or a lower-case letter [a-f]. *)
Theorem String_lowercase_hex (a : Address) :
  is_addr a = true ->
  length (String a) = 64%nat /\
  Forall (fun c => 48 <= c <= 57 \/ 97 <= c <= 102) (String a).
Proof.
  intros Ha. split.
  - rewrite String_length. apply is_addr_len in Ha. unfold len in Ha. lia.
  - apply String_chars, is_addr_bytes, Ha.
Qed.

Lemma String_lowercase_hex_witness :
  length (String (addr_of_head 171)) = 64%nat /\
  Forall (fun c => 48 <= c <= 57 \/ 97 <= c <= 102) (String (addr_of_head 171)).
Proof. apply String_lowercase_hex. reflexivity. Defined.

(** X17.  [String] is injective on 32-byte addresses: two addresses with the
    same rendering are the same address. *)
Theorem String_injective (a b : Address) :
  is_addr a = true -> is_addr b = true -> String a = String b -> a = b.
Proof.
  intros Ha Hb. apply String_inj; now apply is_addr_bytes.
Qed.

Lemma String_injective_witness : addr_of_last 0 = zero_address.
Proof. apply String_injective; reflexivity. Defined.

Lemma slice_quoted (s : list Z) :
  slice ([34] ++ s ++ [34]) 1 (Z.of_nat (length ([34] ++ s ++ [34])) - 1) = Some s.
Proof.
  unfold slice. rewrite !length_app. simpl length.
  assert (Hc : (0 <=? 1) && (1 <=? Z.of_nat (1 + (length s + 1)) - 1) &&
               (Z.of_nat (1 + (length s + 1)) - 1 <=? Z.of_nat (1 + (length s + 1)))
               = true).
  { rewrite !andb_true_iff, !Z.leb_le. lia. }
  rewrite Hc.
  replace (Z.to_nat (Z.of_nat (1 + (length s + 1)) - 1 - 1)) with (length s) by lia.
  change (drop (Z.to_nat 1) ([34] ++ s ++ [34])) with (s ++ [34]).
  now rewrite take_app_length.
Qed.

(** X18.  Marshal then unmarshal: [UnmarshalJSON] on the output of
    [MarshalJSON] strips exactly the two quotes, hands the rendering
    [String a] to [common.HexToHash], stores its result and returns [nil]. *)
Theorem UnmarshalJSON_MarshalJSON (HexToHash : list Z -> Address) (a old : Address) :
  UnmarshalJSON HexToHash (fst (MarshalJSON a)) old
  = Some (nil_error, HexToHash (String a)).
Proof.
  unfold UnmarshalJSON, MarshalJSON, bind, lift. cbn [fst].
  now rewrite slice_quoted.
Qed.

(** X19.  [UnmarshalJSON] panics on an input of fewer than two bytes: the
    slice expression [value[1 : len(value)-1]] is out of range. *)
Theorem UnmarshalJSON_short_panics (HexToHash : list Z -> Address)
    (value : list Z) (a : Address) :
  (length value < 2)%nat -> UnmarshalJSON HexToHash value a = None.
Proof.
  intros H. unfold UnmarshalJSON, bind, lift, slice.
  assert (Hc : (1 <=? Z.of_nat (length value) - 1) = false) by (apply Z.leb_gt; lia).
  now rewrite Hc, andb_false_r.
Qed.

Lemma UnmarshalJSON_short_panics_witness :
  UnmarshalJSON (fun _ => zero_address) [34] zero_address = None.
Proof. apply UnmarshalJSON_short_panics. simpl. lia. Defined.

(** *** [Bin] *)

(** A property of bytes that holds on the 256 of them holds on every byte. *)
Lemma forall_byte (P : Z -> bool) :
  forallb P (map Z.of_nat (seq 0 256)) = true ->
  forall b, 0 <= b < 256 -> P b = true.
Proof.
  intros H b Hb. rewrite forallb_forall in H. apply H.
  replace b with (Z.of_nat (Z.to_nat b)) by lia.
  apply in_map, in_seq. lia.
Qed.

(** [%08b] writes the eight bits of a byte, the most significant first. *)
Lemma fmt_08b_bits (b : Z) :
  0 <= b < 256 ->
  fmt_08b b = map (fun j => if Z.testbit b (7 - j) then 49 else 48) [0; 1; 2; 3; 4; 5; 6; 7].
Proof.
  intros Hb.
  assert (H : forall b, 0 <= b < 256 ->
            bool_decide
              (fmt_08b b = map (fun j => if Z.testbit b (7 - j) then 49 else 48)
                               [0; 1; 2; 3; 4; 5; 6; 7]) = true).
  { apply (forall_byte (fun b => bool_decide
             (fmt_08b b = map (fun j => if Z.testbit b (7 - j) then 49 else 48)
                              [0; 1; 2; 3; 4; 5; 6; 7]))).
    vm_compute. reflexivity. }
  exact (bool_decide_eq_true_1 _ (H b Hb)).
Qed.

Lemma fmt_08b_length (b : Z) : 0 <= b < 256 -> length (fmt_08b b) = 8%nat.
Proof. intros Hb. now rewrite fmt_08b_bits. Qed.

Lemma Bin_length_bytes (a : Address) :
  Forall (fun b => 0 <= b < 256) a -> length (Bin a) = (8 * length a)%nat.
Proof.
  unfold Bin. induction 1 as [|b a Hb _ IH]; [reflexivity|].
  cbn [map concat]. rewrite length_app, IH, fmt_08b_length by exact Hb. simpl. lia.
Qed.

Lemma Bin_nth_bytes (a : Address) :
  forall (i j : nat) (x : Z),
    Forall (fun b => 0 <= b < 256) a ->
    a !! i = Some x -> (j < 8)%nat ->
    nth (8 * i + j) (Bin a) 0 = nth j (fmt_08b x) 0.
Proof.
  unfold Bin. induction a as [|b a IH]; intros i j x Ha Hx Hj; [discriminate|].
  inversion Ha as [|? ? Hb Ha']; subst.
  cbn [map concat]. destruct i as [|i].
  - injection Hx as <-. rewrite Nat.mul_0_r, Nat.add_0_l.
    apply app_nth1. rewrite fmt_08b_length by exact Hb. exact Hj.
  - rewrite app_nth2 by (rewrite fmt_08b_length by exact Hb; lia).
    rewrite fmt_08b_length by exact Hb.
    replace (8 * S i + j - 8)%nat with (8 * i + j)%nat by lia.
    now apply IH.
Qed.

(** X20.  [Bin] renders a 32-byte address as 256 characters, and character
    [k] is ['1'] when bit [k] of the address (most significant bit of byte 0
    first) is set and ['0'] otherwise: every bit is printed, not only the
    first eight. *)
Theorem Bin_bits (a : Address) (k : Z) :
  is_addr a = true -> 0 <= k < 256 ->
  length (Bin a) = 256%nat /\
  nth (Z.to_nat k) (Bin a) 0 = if bit_at a k then 49 else 48.
Proof.
  intros Ha Hk. pose proof (is_addr_len _ Ha) as La.
  pose proof (is_addr_bytes _ Ha) as Hbytes. split.
  - rewrite Bin_length_bytes by exact Hbytes. unfold len in La. lia.
  - destruct (index_in_range a (k / 8)) as (x & Hx & Hl); [lia|].
    rewrite (bit_at_index a k x Hx).
    replace (Z.to_nat k) with (8 * Z.to_nat (k / 8) + Z.to_nat (k mod 8))%nat by lia.
    rewrite (Bin_nth_bytes a _ _ x Hbytes Hl) by lia.
    rewrite fmt_08b_bits by exact (index_is_byte _ _ _ Ha Hx).
    assert (Hj : 0 <= k mod 8 < 8) by lia.
    set (j := k mod 8) in *. clearbody j. below8 j; reflexivity.
Qed.

Lemma Bin_bits_witness :
  length (Bin (addr_of_head 200)) = 256%nat /\
  nth (Z.to_nat 4) (Bin (addr_of_head 200)) 0
    = if bit_at (addr_of_head 200) 4 then 49 else 48.
Proof. apply Bin_bits; [reflexivity | lia]. Defined.

(** ** [ProxCmp] and the distance *)

Lemma be_fold_lt (r1 : list Z) :
  forall (r2 : list Z) (acc1 acc2 : Z),
    length r1 = length r2 ->
    Forall (fun b => 0 <= b < 256) r1 -> Forall (fun b => 0 <= b < 256) r2 ->
    acc1 < acc2 ->
    fold_left (fun acc b => acc * 256 + b) r1 acc1
    < fold_left (fun acc b => acc * 256 + b) r2 acc2.
Proof.
  induction r1 as [|b1 r1 IH]; intros [|b2 r2] acc1 acc2 Hlen H1 H2 Hacc;
    try discriminate; [exact Hacc|].
  inversion H1 as [|? ? Hb1 H1']; subst. inversion H2 as [|? ? Hb2 H2']; subst.
  simpl. apply IH; [simpl in Hlen; lia | assumption | assumption | lia].
Qed.

(** Byte sequences of one length compare, as big-endian integers, as their
    first different bytes do. *)
Lemma be_fold_lex (X : list Z) :
  forall (Y : list Z) (acc : Z) (k : nat) (x y : Z),
    length X = length Y ->
    Forall (fun b => 0 <= b < 256) X -> Forall (fun b => 0 <= b < 256) Y ->
    (forall i, (i < k)%nat -> X !! i = Y !! i) ->
    X !! k = Some x -> Y !! k = Some y -> x < y ->
    fold_left (fun acc b => acc * 256 + b) X acc
    < fold_left (fun acc b => acc * 256 + b) Y acc.
Proof.
  induction X as [|x0 X IH]; intros [|y0 Y] acc k x y Hlen HX HY Hsame Hx Hy Hlt;
    try discriminate.
  inversion HX as [|? ? Hx0 HX']; subst. inversion HY as [|? ? Hy0 HY']; subst.
  destruct k as [|k].
  - injection Hx as ->. injection Hy as ->. simpl.
    apply be_fold_lt; [simpl in Hlen; lia | assumption | assumption | lia].
  - pose proof (Hsame 0%nat ltac:(lia)) as E0. injection E0 as ->.
    simpl. apply (IH Y _ k x y); try assumption.
    + simpl in Hlen. lia.
    + intros i Hi. exact (Hsame (S i) ltac:(lia)).
Qed.

Lemma xor_bytes (a t : Address) :
  is_addr a = true -> is_addr t = true ->
  Forall (fun b => 0 <= b < 256) (zip_with Z.lxor a t).
Proof.
  intros Ha Ht. apply Forall_lookup. intros i z Hz.
  apply lookup_zip_with_Some in Hz as (x & y & -> & Hx & Hy).
  apply lxor_byte.
  - exact (index_is_byte _ _ _ Ha (index_of_lookup _ _ _ Hx)).
  - exact (index_is_byte _ _ _ Ht (index_of_lookup _ _ _ Hy)).
Qed.

(** When [ProxCmp] says that [a] is closer, its distance to the target is the
    smaller one. *)
Lemma distance_lt_of_closer (target a b : Address) :
  is_addr target = true -> is_addr a = true -> is_addr b = true ->
  ProxCmp target a b = Some (-1) -> distance a target < distance b target.
Proof.
  intros Ht Ha Hb H.
  pose proof (is_addr_len _ Ht) as Lt. pose proof (is_addr_len _ Ha) as La.
  pose proof (is_addr_len _ Hb) as Lb.
  apply ProxCmp_closer_inv in H as (k & Hk & Hat & Hbefore).
  apply cmp_body_closer_inv in Hat as (ai & ti & bi & Ea & Et & Eb & Hlt).
  unfold distance, be_value.
  apply (be_fold_lex _ _ 0 (Z.to_nat k) (Z.lxor ai ti) (Z.lxor bi ti)).
  - rewrite !length_zip_with. unfold len in *. lia.
  - now apply xor_bytes.
  - now apply xor_bytes.
  - intros n Hn. rewrite !lookup_zip_with.
    destruct (cmp_body_Next_inv target a b (Z.of_nat n) (Hbefore (Z.of_nat n) ltac:(lia)))
      as [E _].
    unfold index in E. rewrite La, Lb in E.
    replace ((0 <=? Z.of_nat n) && (Z.of_nat n <? 32)) with true in E by lia.
    rewrite Nat2Z.id in E. now rewrite E.
  - apply lookup_zip_with_Some. exists ai, ti.
    split; [reflexivity|]. split; now apply lookup_of_index.
  - apply lookup_zip_with_Some. exists bi, ti.
    split; [reflexivity|]. split; now apply lookup_of_index.
  - exact Hlt.
Qed.

(** C7.  For 32-byte addresses, exactly one of three cases holds:
    [ProxCmp target a b] is -1 and [a] is closer to the target (its XOR
    distance, read as a big-endian integer, is the smaller), or it is 0 and
    the two distances are equal, or it is 1 and [b] is closer; and comparing
    an address with itself gives 0. *)
Theorem ProxCmp_trichotomy (target a b : Address) :
  is_addr target = true -> is_addr a = true -> is_addr b = true ->
  ((ProxCmp target a b = Some (-1) /\ distance a target < distance b target) \/
   (ProxCmp target a b = Some 0 /\ distance a target = distance b target) \/
   (ProxCmp target a b = Some 1 /\ distance b target < distance a target)) /\
  ProxCmp target a a = Some 0.
Proof.
  intros Ht Ha Hb.
  pose proof (is_addr_len _ Ht) as Lt. pose proof (is_addr_len _ Ha) as La.
  pose proof (is_addr_len _ Hb) as Lb.
  split; [|apply ProxCmp_same; congruence].
  destruct (ProxCmp_total target a b) as [H | [H | H]]; try congruence.
  - left. split; [exact H|]. now apply distance_lt_of_closer.
  - right. left. split; [exact H|].
    apply ProxCmp_zero_inv in H; [|congruence|congruence]. now subst.
  - right. right. split; [exact H|].
    apply distance_lt_of_closer; try assumption.
    rewrite ProxCmp_opp, H. reflexivity.
Qed.

Lemma ProxCmp_trichotomy_witness :
  ((ProxCmp zero_address (addr_of_last 1) (addr_of_head 1) = Some (-1) /\
    distance (addr_of_last 1) zero_address < distance (addr_of_head 1) zero_address) \/
   (ProxCmp zero_address (addr_of_last 1) (addr_of_head 1) = Some 0 /\
    distance (addr_of_last 1) zero_address = distance (addr_of_head 1) zero_address) \/
   (ProxCmp zero_address (addr_of_last 1) (addr_of_head 1) = Some 1 /\
    distance (addr_of_head 1) zero_address < distance (addr_of_last 1) zero_address)) /\
  ProxCmp zero_address (addr_of_last 1) (addr_of_last 1) = Some 0.
Proof. apply ProxCmp_trichotomy; reflexivity. Defined.

(** The sign on a concrete pair: one step from the target is closer than
    [2^248] steps. *)
Example ProxCmp_closer_example :
  ProxCmp zero_address (addr_of_last 1) (addr_of_head 1) = Some (-1) /\
  ProxCmp zero_address (addr_of_head 1) (addr_of_last 1) = Some 1 /\
  distance (addr_of_last 1) zero_address = 1 /\
  distance (addr_of_head 1) zero_address = 2 ^ 248.
Proof. repeat split; vm_compute; reflexivity. Qed.

(** ** The generated bytes are the draws *)

(** The byte that the [n]-th next call of [byte(rand.Intn(255))] returns. *)
Local Abbreviation draw rnd n := (byte_of (draws rnd (cursor rnd + n) mod 255)).

Lemma rand_byte_run (s : Rand) :
  rand_byte s = Some (draw s 0%nat, mkRand (draws s) (S (cursor s))).
Proof.
  unfold rand_byte, bind, Intn, ret. change (255 <=? 0) with false. cbv iota.
  now rewrite Nat.add_0_r.
Qed.

Lemma draw_range (s : Rand) (n : nat) : 0 <= draw s n < 255.
Proof.
  pose proof (Z.mod_pos_bound (draws s (cursor s + n)) 255 ltac:(lia)).
  rewrite byte_of_small; lia.
Qed.

(** The fill loop on the random source: byte [i] is draw number [i - lo], and
    the source has moved by the number of turns. *)
Lemma for_up_fill_rand (n : nat) :
  forall (lo : Z) (addr : Address) (s : Rand),
    0 <= lo -> lo + Z.of_nat n <= len addr ->
    exists addr',
      for_up n lo (fun i addr => (do b <- rand_byte; lift (store addr i b))%go) addr s
        = Some (addr', mkRand (draws s) (cursor s + n)) /\
      len addr' = len addr /\
      (forall i, i < lo -> index addr' i = index addr i) /\
      (forall i, lo <= i < lo + Z.of_nat n ->
         index addr' i = Some (draw s (Z.to_nat (i - lo)))).
Proof.
  induction n as [|n IH]; intros lo addr s Hlo Hhi.
  - exists addr. split; [|split; [reflexivity | split; [reflexivity | intros i Hi; lia]]].
    cbn [for_up]. unfold ret. rewrite Nat.add_0_r. now destruct s.
  - cbn [for_up]. unfold bind at 1. unfold bind at 1.
    rewrite rand_byte_run. unfold lift. rewrite store_in_range by lia.
    destruct (IH (lo + 1) (<[Z.to_nat lo := draw s 0%nat]> addr)
                (mkRand (draws s) (S (cursor s))))
      as (addr' & Hrun & Hlen & Hlow & Hnew); [lia | rewrite len_insert; lia |].
    cbn [draws cursor] in Hrun, Hnew.
    exists addr'. rewrite len_insert in Hlen. split; [|split; [exact Hlen | split]].
    + replace (cursor s + S n)%nat with (S (cursor s) + n)%nat by lia. exact Hrun.
    + intros i Hi. rewrite Hlow by lia. apply index_insert_ne; lia.
    + intros i Hi. destruct (Z.eq_dec i lo) as [-> | Hne].
      * rewrite Hlow by lia. rewrite index_insert_eq by lia.
        now replace (Z.to_nat (lo - lo)) with 0%nat by lia.
      * rewrite Hnew by lia. do 4 f_equal. lia.
Qed.

Lemma fill_after_rand (pos : Z) (addr : Address) (s : Rand) :
  -1 <= pos < len addr ->
  exists addr',
    fill_after pos rand_byte addr s
      = Some (addr', mkRand (draws s) (cursor s + Z.to_nat (len addr - (pos + 1)))) /\
    len addr' = len addr /\
    (forall i, i <= pos -> index addr' i = index addr i) /\
    (forall i, pos < i < len addr ->
       index addr' i = Some (draw s (Z.to_nat (i - pos - 1)))).
Proof.
  intros Hpos. unfold fill_after.
  destruct (for_up_fill_rand (Z.to_nat (len addr - (pos + 1))) (pos + 1) addr s)
    as (addr' & Hrun & Hlen & Hlow & Hnew); [lia | lia |].
  exists addr'. split; [exact Hrun|]. split; [exact Hlen|]. split.
  - intros i Hi. apply Hlow. lia.
  - intros i Hi. rewrite Hnew by lia. do 4 f_equal. lia.
Qed.

(** The bits after [trans] of the byte written at [pos] are those of the
    random byte. *)
Lemma flipped_byte_low_bits (trans old randbyte j : Z) :
  0 <= trans < 8 -> trans < j < 8 ->
  Z.testbit
    (Z.lor (Z.lxor (Z.land old
                      (for_pure (Z.to_nat (trans + 1)) 0
                         (fun j t => Z.lor t (byte_of (Z.shiftl 1 (byte_of (7 - j))))) 0))
                   (byte_of (Z.shiftl 1 (byte_of (7 - trans)))))
           (Z.land randbyte
              (Z.lxor (for_pure (Z.to_nat (trans + 1)) 0
                         (fun j t => Z.lor t (byte_of (Z.shiftl 1 (byte_of (7 - j))))) 0)
                      (byte_of 255))))
    (7 - j)
  = Z.testbit randbyte (7 - j).
Proof.
  intros Ht Hj.
  rewrite Z.lor_spec, Z.lxor_spec, !Z.land_spec, Z.lxor_spec.
  rewrite transbytea_bits, flipbyte_bits by lia.
  change (byte_of 255) with 255. rewrite testbit_255 by lia.
  replace (7 - trans <=? 7 - j) with false by lia.
  replace (7 - j =? 7 - trans) with false by lia.
  replace (7 - j <? 8) with true by lia.
  now destruct (Z.testbit old (7 - j)), (Z.testbit randbyte (7 - j)).
Qed.

(** [RandomAddressAt] with a negative [prox], draw by draw. *)
Lemma RandomAddressAt_negative_draws (self : Address) (prox : Z) (rnd : Rand) :
  0 < len self -> prox < 0 ->
  exists addr,
    RandomAddressAt self prox rnd
      = Some (addr, mkRand (draws rnd) (cursor rnd + Z.to_nat (len self - 1))) /\
    len addr = len self /\
    index addr 0 = index self 0 /\
    (forall i, 0 < i < len self -> index addr i = Some (draw rnd (Z.to_nat (i - 1)))).
Proof.
  intros Hlen Hprox. unfold RandomAddressAt.
  replace (prox >=? 0) with false by lia.
  unfold bind at 1. unfold ret at 1.
  destruct (fill_after_rand 0 self rnd) as (addr & Hrun & Hl & Hlow & Hnew); [lia|].
  exists addr. split; [|split; [exact Hl | split]].
  - replace (len self - 1) with (len self - (0 + 1)) by lia. exact Hrun.
  - apply Hlow. lia.
  - intros i Hi. rewrite Hnew by exact Hi. do 4 f_equal. lia.
Qed.

(** [RandomAddressAt] with [0 <= prox < 256], draw by draw: the first draw
    goes into the byte at [pos], the others fill the bytes after it. *)
Lemma RandomAddressAt_nonneg_draws (r : Address) (prox : Z) (rnd : Rand) :
  is_addr r = true -> 0 <= prox < 256 ->
  exists new addr,
    RandomAddressAt r prox rnd
      = Some (addr, mkRand (draws rnd) (cursor rnd + 1 + Z.to_nat (31 - prox / 8))) /\
    len addr = 32 /\
    (forall i, i < prox / 8 -> index addr i = index r i) /\
    index addr (prox / 8) = Some new /\ 0 <= new < 256 /\
    (forall j, prox mod 8 < j < 8 ->
       Z.testbit new (7 - j) = Z.testbit (draw rnd 0%nat) (7 - j)) /\
    (forall i, prox / 8 < i < 32 ->
       index addr i = Some (draw rnd (1 + Z.to_nat (i - prox / 8 - 1)))).
Proof.
  intros Hr Hprox. pose proof (is_addr_len _ Hr) as Lr.
  unfold RandomAddressAt.
  replace (prox >=? 0) with true by lia.
  replace (Z.quot prox 8) with (prox / 8) by lia.
  replace (Z.rem prox 8) with (prox mod 8) by lia.
  set (pos := prox / 8). set (trans := prox mod 8).
  assert (Hpos : 0 <= pos < 32) by (unfold pos; lia).
  assert (Htrans : 0 <= trans < 8) by (unfold trans; lia).
  unfold bind at 1. unfold bind at 1. rewrite rand_byte_run.
  unfold bind at 1. unfold lift at 1.
  destruct (index_in_range r pos) as (old & Hold & _); [lia|]. rewrite Hold.
  unfold bind at 1. unfold lift at 1. rewrite store_in_range by lia.
  unfold ret.
  match goal with |- context [<[Z.to_nat pos := ?v]> r] => set (new := v) end.
  destruct (fill_after_rand pos (<[Z.to_nat pos := new]> r)
              (mkRand (draws rnd) (S (cursor rnd))))
    as (addr & Hrun & Hlen & Hlow & Hnew); [rewrite len_insert; lia|].
  rewrite len_insert in Hlen, Hnew, Hrun. cbn [draws cursor] in Hrun, Hnew.
  exists new, addr. split; [|split; [lia | split; [|split; [|split; [|split]]]]].
  - replace (cursor rnd + 1 + Z.to_nat (31 - pos))%nat
      with (S (cursor rnd) + Z.to_nat (len r - (pos + 1)))%nat by lia.
    exact Hrun.
  - intros i Hi. rewrite Hlow by lia. apply index_insert_ne; lia.
  - rewrite Hlow by lia. apply index_insert_eq. lia.
  - apply flipped_byte_range; [exact (index_is_byte _ _ _ Hr Hold)|].
    pose proof (draw_range rnd 0). lia.
  - intros j Hj. now apply flipped_byte_low_bits.
  - intros i Hi. rewrite Hnew by lia. do 4 f_equal. lia.
Qed.

(** X9.  For a 32-byte [self], [prox < 256] and a random source in state
    [rnd], [RandomAddressAt] returns a 32-byte address.  The bytes before byte
    [prox / 8] are those of [self].  With [prox >= 0] the first draw fills the
    bits after bit [prox mod 8] of byte [prox / 8].  Every byte after that one
    (after byte 0 when [prox] is negative) is the next draw of
    [byte(rand.Intn(255))] in order, so it is below 255 and never [0xff].  The
    source has advanced by exactly the draws used. *)
Theorem RandomAddressAt_well_formed (self : Address) (prox : Z) (rnd : Rand) :
  is_addr self = true -> prox < 256 ->
  exists addr rnd',
    RandomAddressAt self prox rnd = Some (addr, rnd') /\
    is_addr addr = true /\
    (forall i, i < prox / 8 -> index addr i = index self i) /\
    (forall i, Z.max 0 (prox / 8) < i < 32 ->
       exists b, index addr i = Some b /\ 0 <= b < 255 /\
         b = draw rnd ((if (prox <? 0)%Z then 0 else 1)
                       + Z.to_nat (i - Z.max 0 (prox / 8) - 1))%nat) /\
    (0 <= prox ->
       exists new, index addr (prox / 8) = Some new /\
         forall j, prox mod 8 < j < 8 ->
           Z.testbit new (7 - j) = Z.testbit (draw rnd 0%nat) (7 - j)) /\
    draws rnd' = draws rnd /\
    cursor rnd' = (cursor rnd + (if (prox <? 0)%Z then 0 else 1)
                   + Z.to_nat (31 - Z.max 0 (prox / 8)))%nat.
Proof.
  intros Hs Hprox. pose proof (is_addr_len _ Hs) as Ls.
  destruct (Z.ltb_spec prox 0) as [Hneg | Hnn].
  - destruct (RandomAddressAt_negative_draws self prox rnd)
      as (addr & Hrun & Hlen & H0 & Hnew); [lia | exact Hneg |].
    replace (Z.max 0 (prox / 8)) with 0 by lia.
    eexists addr, _. split; [exact Hrun|]. cbn [draws cursor].
    split; [|split; [|split; [|split; [|split]]]].
    + apply is_addr_intro; [lia|]. intros i x Hx.
      pose proof (index_inv _ _ _ Hx) as [Hi _].
      destruct (Z.eq_dec i 0) as [-> | Hne].
      * rewrite H0 in Hx. exact (index_is_byte _ _ _ Hs Hx).
      * rewrite Hnew in Hx by lia.
        assert (x = draw rnd (Z.to_nat (i - 1))) as -> by congruence.
        pose proof (draw_range rnd (Z.to_nat (i - 1))). lia.
    + intros i Hi. rewrite !index_out_of_range; [reflexivity | lia | lia].
    + intros i Hi. eexists. split; [apply Hnew; lia|].
      split; [apply draw_range|]. do 4 f_equal. lia.
    + intros Hp. lia.
    + reflexivity.
    + rewrite Ls. lia.
  - destruct (RandomAddressAt_nonneg_draws self prox rnd Hs ltac:(lia))
      as (new & addr & Hrun & Hlen & Hlow & Hat & Hrange & Hbits & Hnew).
    replace (Z.max 0 (prox / 8)) with (prox / 8) by lia.
    eexists addr, _. split; [exact Hrun|]. cbn [draws cursor].
    split; [|split; [|split; [|split; [|split]]]].
    + apply is_addr_intro; [exact Hlen|]. intros i x Hx.
      pose proof (index_inv _ _ _ Hx) as [Hi _].
      destruct (Z.lt_trichotomy i (prox / 8)) as [Hlt | [-> | Hgt]].
      * rewrite Hlow in Hx by exact Hlt. exact (index_is_byte _ _ _ Hs Hx).
      * assert (x = new) by congruence. lia.
      * rewrite Hnew in Hx by lia.
        assert (x = draw rnd (1 + Z.to_nat (i - prox / 8 - 1))) as -> by congruence.
        pose proof (draw_range rnd (1 + Z.to_nat (i - prox / 8 - 1))). lia.
    + exact Hlow.
    + intros i Hi. eexists. split; [apply Hnew; lia|].
      split; [apply draw_range | reflexivity].
    + intros _. exists new. split; [exact Hat | exact Hbits].
    + reflexivity.
    + reflexivity.
Qed.

Lemma RandomAddressAt_well_formed_witness :
  exists addr rnd',
    RandomAddressAt (addr_of_head 200) 13 (rnd_of [254; 17; 3]) = Some (addr, rnd') /\
    is_addr addr = true /\
    (forall i, i < 13 / 8 -> index addr i = index (addr_of_head 200) i) /\
    (forall i, Z.max 0 (13 / 8) < i < 32 ->
       exists b, index addr i = Some b /\ 0 <= b < 255 /\
         b = draw (rnd_of [254; 17; 3])
               ((if (13 <? 0)%Z then 0 else 1) + Z.to_nat (i - Z.max 0 (13 / 8) - 1))%nat) /\
    (0 <= 13 ->
       exists new, index addr (13 / 8) = Some new /\
         forall j, 13 mod 8 < j < 8 ->
           Z.testbit new (7 - j) = Z.testbit (draw (rnd_of [254; 17; 3]) 0%nat) (7 - j)) /\
    draws rnd' = draws (rnd_of [254; 17; 3]) /\
    cursor rnd' = Nat.add (Nat.add (cursor (rnd_of [254; 17; 3]))
                                   (if 13 <? 0 then 0%nat else 1%nat))
                          (Z.to_nat (31 - Z.max 0 (13 / 8))).
Proof. apply RandomAddressAt_well_formed; [reflexivity | lia]. Defined.

(** X10.  [RandomAddress] returns a 32-byte address whose byte 0 is the zero
    byte of [Address{}] and whose byte [i], for [i] from 1 to 31, is the
    draw number [i - 1] of [byte(rand.Intn(255))], so below 255; it uses
    exactly 31 draws. *)
Theorem RandomAddress_shape (rnd : Rand) :
  exists addr rnd',
    RandomAddress rnd = Some (addr, rnd') /\
    is_addr addr = true /\
    index addr 0 = Some 0 /\
    (forall i, 0 < i < 32 ->
       exists b, index addr i = Some b /\ 0 <= b < 255 /\
                 b = draw rnd (Z.to_nat (i - 1))) /\
    draws rnd' = draws rnd /\
    cursor rnd' = (cursor rnd + 31)%nat.
Proof.
  destruct (RandomAddressAt_negative_draws zero_address (-1) rnd)
    as (addr & Hrun & Hlen & H0 & Hnew); [reflexivity | lia |].
  change (index zero_address 0) with (Some 0) in H0.
  change (len zero_address) with 32 in Hlen, Hnew, Hrun.
  eexists addr, _. split; [exact Hrun|]. cbn [draws cursor].
  split; [|split; [exact H0 | split; [|split; reflexivity]]].
  - apply is_addr_intro; [exact Hlen|]. intros i x Hx.
    pose proof (index_inv _ _ _ Hx) as [Hi _].
    destruct (Z.eq_dec i 0) as [-> | Hne].
    + assert (x = 0) by congruence. lia.
    + rewrite Hnew in Hx by lia.
      assert (x = draw rnd (Z.to_nat (i - 1))) as -> by congruence.
      pose proof (draw_range rnd (Z.to_nat (i - 1))). lia.
  - intros i Hi. eexists. split; [apply Hnew; exact Hi|].
    split; [apply draw_range | reflexivity].
Qed.

(** The draws on a concrete stream: bytes 1, 2, 3 are the first three draws,
    here 7, 8 and 9, and byte 0 stays 0. *)
Example RandomAddress_draws_example :
  option_map fst (RandomAddress (rnd_of [7; 8; 9]))
  = Some (0 :: 7 :: 8 :: 9 :: repeat 0 28).
Proof. vm_compute. reflexivity. Qed.
